(** * DSP latency test client (index.js): model and verified properties

    The client paces requests to a remote endpoint over a push socket,
    correlates the replies that arrive on a pull socket by request id, and
    reports latency percentiles.  This file embeds the parts of [index.js]
    that carry logic: the time arithmetic, the id encoding, the sender loop,
    the reply callback and the statistics report.

    Modelling conventions.
    - JavaScript numbers that hold counters, ids and microsecond values are
      integers in the program; they are modelled as [Z].
    - Numbers that may be fractional (the rate, the duration, the percentile
      fractions and the reported milliseconds) are rationals [Q];
      [Math.floor] is [Qfloor] and [Math.round] is [floor (x + 1/2)].
      The rate and the duration are read as doubles, and the product
      [test_duration * MPS] and the quotient [i * 1e6 / MPS] are rounded
      as the code's IEEE 754 double arithmetic rounds them ([binary64]:
      to nearest, ties to even, with the gradual underflow of the
      format).  Integer arithmetic on counters, ids and microseconds
      is exact in doubles below 2^53 and is written in [Z]; the theorems
      that depend on this carry the bound as a hypothesis.
    - [undefined] and [NaN] are explicit constructors.
    - The two objects [reqStartTime] and [reqEndTime] are finite maps.
    - Node runs the program on one thread: the body of the sender loop
      touches the shared variables only after its last [await], and the
      reply callback runs to completion, so both are atomic updates of the
      shared state and a run is a sequence of such updates. *)

From Stdlib Require Import ZArith QArith Qround Qpower Qcanon Lia List.
From Stdlib Require Import Strings.Byte Strings.Ascii Strings.String.
From stdpp Require Import base option list gmap sorting strings.

Local Open Scope Z_scope.

(** ** Numbers *)

(** [Math.floor] and [Math.round] on a number that is not NaN. *)
Definition Math_floor (x : Q) : Z := Qfloor x.
Definition Math_round (x : Q) : Z := Qfloor (x + (1 # 2))%Q.

(** *** Double precision *)

(** Round to the nearest integer, ties to the even one. *)
Definition round_half_even (x : Q) : Z :=
  let f := Qfloor x in
  match (x - inject_Z f ?= 1 # 2)%Q with
  | Lt => f
  | Gt => f + 1
  | Eq => if Z.even f then f else f + 1
  end.

(** [floor (log2 x)] of a positive fraction in lowest terms. *)
Definition ilog2 (x : Q) : Z :=
  let k := Z.log2 (Qnum x) - Z.log2 (Zpos (Qden x)) in
  if Qle_bool (2 ^ k) x then k else k - 1.

(** The double nearest to a positive number: 53 significant bits, on the
    grid of multiples of [2^e], where [e] is never below -1074. *)
Definition binary64_pos (a : Q) : Q :=
  let e := Z.max (-1074) (ilog2 a - 52) in
  (inject_Z (round_half_even (a / 2 ^ e)) * 2 ^ e)%Q.

(** The result of an arithmetic operation whose exact value is [x], as a
    JavaScript number.  A value beyond the largest double, which the code
    would hold as [Infinity], is kept as a number here. *)
Definition binary64 (x : Q) : Q :=
  match (x ?= 0)%Q with
  | Eq => 0
  | Gt => binary64_pos (Qred x)
  | Lt => - binary64_pos (Qred (- x))
  end.

(** The comparison [x < y] of two numbers. *)
Definition Qltb (x y : Q) : bool :=
  match (x ?= y)%Q with Lt => true | _ => false end.

(** ** Time *)

(** [process.hrtime()] returns the pair [[seconds, nanoseconds]]. *)
Record hrtime := HrTime { hr_sec : Z; hr_nsec : Z }.

(** Difference in microseconds between two hrtimes.  (The code computes
    it in doubles, which is this integer as long as it stays below 2^53.) *)
Definition uTimeDiff (time0 time1 : hrtime) : Z :=
  (hr_sec time1 - hr_sec time0) * 1000000
  + (hr_nsec time1 - hr_nsec time0) / 1000.

(** An hrtime in nanoseconds. *)
Definition nanos (t : hrtime) : Z := hr_sec t * 1000000000 + hr_nsec t.

(** A reading as [process.hrtime()] gives it: whole seconds and the
    nanoseconds of the running second.  The seconds are bounded (by some
    272 years), so that a difference in microseconds stays below 2^53,
    where the code's double arithmetic on integers is exact. *)
Definition hrtime_ok (t : hrtime) : Prop :=
  0 <= hr_sec t < 2 ^ 33 ∧ 0 <= hr_nsec t < 1000000000.

(** ** Buffers and the request id on the wire *)

Definition buffer := list byte.

Definition byte_of_Z (z : Z) : byte :=
  match Byte.of_N (Z.to_N (Z.land z 255)) with
  | Some b => b
  | None => x00
  end.

Definition Z_of_byte (b : byte) : Z := Z.of_N (Byte.to_N b).

(** [buf.writeUInt32BE(value, 0)] on a zero-filled buffer of four bytes:
    the value is range-checked (a value outside [0, 2^32) raises
    ERR_OUT_OF_RANGE), then stored byte by byte with [>>> 8]. *)
Definition writeUInt32BE (value : Z) : option buffer :=
  if decide (0 <= value < 2 ^ 32) then
    let b3 := byte_of_Z value in
    let value := Z.shiftr value 8 in
    let b2 := byte_of_Z value in
    let value := Z.shiftr value 8 in
    let b1 := byte_of_Z value in
    let value := Z.shiftr value 8 in
    let b0 := byte_of_Z value in
    Some [b0; b1; b2; b3]
  else None.

Definition encUInt32 (uint32 : Z) : option buffer := writeUInt32BE uint32.

(** [buf.readUInt32BE(0)]: raises a range error (here [None]) when the
    buffer has fewer than four bytes. *)
Definition readUInt32BE (buf : buffer) : option Z :=
  match buf with
  | b0 :: b1 :: b2 :: b3 :: _ =>
      Some (Z_of_byte b0 * 2 ^ 24 + Z_of_byte b1 * 2 ^ 16
            + Z_of_byte b2 * 2 ^ 8 + Z_of_byte b3)
  | _ => None
  end.

(** ** JavaScript values that can be missing *)

(** A number that may be [NaN]. *)
Inductive jsnumber := JsNaN | JsNum (q : Q).

(** [arr[idx]] for an integer index: [None] is [undefined], which is what
    JavaScript yields for every index outside [0, arr.length). *)
Definition array_get {A} (arr : list A) (idx : Z) : option A :=
  if decide (0 <= idx) then arr !! Z.to_nat idx else None.

(** The index is inside the array. *)
Definition in_bounds {A} (arr : list A) (idx : Z) : Prop :=
  0 <= idx < Z.of_nat (length arr).

(** ** Options and shared variables *)

(** The two command-line options the core computes with, as the numbers
    given on the command line. *)
Record options := Options { MPS : Q; test_duration : Q }.

(** Both are declared [type: Number]: the code holds, for each, the
    double nearest to the number given. *)
Definition Number (x : Q) : Q := binary64 x.

(** total number of messages *)
Definition msgs (o : options) : Q :=
  binary64 (Number (test_duration o) * Number (MPS o)).

(** The module-level variables shared by the sender and the receiver. *)
Record store := Store {
  reqStartTime : gmap Z hrtime;
  reqEndTime : gmap Z hrtime;
  pendingCount : Z;
  msgsSent : Z;
  msgsReceived : Z
}.

Definition store_init : store :=
  {| reqStartTime := ∅; reqEndTime := ∅;
     pendingCount := 0; msgsSent := 0; msgsReceived := 0 |}.

(** ** Statistics report *)

(** The loop of [statsReport] over the keys of [reqStartTime]: one latency
    per request that has an end time.  (The order of the enumeration is
    immaterial, the list is sorted next.) *)
Definition latencies (st : store) : list Z :=
  omap (λ '(reqID, t0), uTimeDiff t0 <$> reqEndTime st !! reqID)
       (map_to_list (reqStartTime st)).

(** The comparator [(a, b) => a - b] and [Array.prototype.sort] with a
    comparator: [a] stays before [b] when the comparator is not positive. *)
Definition numeric (a b : Z) : Z := a - b.

Definition before (cmp : Z → Z → Z) (a b : Z) : Prop := cmp a b <= 0.

#[global] Instance before_dec cmp a b : Decision (before cmp a b).
Proof. unfold before. apply _. Defined.

Definition array_sort (cmp : Z → Z → Z) (arr : list Z) : list Z :=
  merge_sort (before cmp) arr.

(** The index read by [latPercMs]. *)
Definition latPercIndex (lats : list Z) (perc : Q) : Z :=
  Math_round (perc * inject_Z (Z.of_nat (length lats))) - 1.

(** [perc => latencies[Math.round(perc * latencies.length) - 1] / 1000];
    [undefined / 1000] is [NaN]. *)
Definition latPercMs (lats : list Z) (perc : Q) : jsnumber :=
  match array_get lats (latPercIndex lats perc) with
  | Some lat => JsNum (inject_Z lat / 1000)
  | None => JsNaN
  end.

(** The six values printed by [statsReport]. *)
Record report := Report {
  rep_sent : Z;
  rep_received : Z;
  rep_max : jsnumber;
  rep_p999 : jsnumber;
  rep_p99 : jsnumber;
  rep_p90 : jsnumber
}.

Definition statsReport (st : store) : report :=
  let lats := array_sort numeric (latencies st) in
  {| rep_sent := msgsSent st;
     rep_received := msgsReceived st;
     rep_max := latPercMs lats 1;
     rep_p999 := latPercMs lats (999 # 1000);
     rep_p99 := latPercMs lats (99 # 100);
     rep_p90 := latPercMs lats (90 # 100) |}.

(** ** Receiver *)

(** The ["message"] callback; the score and category frames are not read.
    [None]: [readUInt32BE] raised. *)
Definition on_message (rawReqID : buffer) (now : hrtime) (st : store)
  : option store :=
  reqID ← readUInt32BE rawReqID;
  Some {| reqStartTime := reqStartTime st;
          reqEndTime := <[reqID := now]> (reqEndTime st);
          pendingCount := pendingCount st - 1;
          msgsSent := msgsSent st;
          msgsReceived := msgsReceived st + 1 |}.

(** ** Sender *)

Record message := Message {
  msg_id : buffer;
  msg_domain : option string;
  msg_ip : option string
}.

(** What the sender asks of its environment. *)
Inductive effect :=
| SetTimeout (ms : Z)
| SocketSend (msg : message)
| SocketClose.

(** Sleep for microseconds (with milliseconds grain). *)
Definition uSleep (usec : Z) : effect := SetTimeout (usec / 1000).

(** What one turn of the sender reads from its environment: the clock at
    the top of the turn, two draws of [Math.random()], and the clock after
    the send. *)
Record turn_env := TurnEnv {
  env_now : hrtime;
  env_rand_domain : Q;
  env_rand_ip : Q;
  env_sent_at : hrtime
}.

(** [arr[Math.floor(Math.random() * arr.length)]] *)
Definition pick {A} (arr : list A) (rand : Q) : option A :=
  array_get arr (Math_floor (rand * inject_Z (Z.of_nat (length arr)))).

(** time that we have to spend: [Math.floor(i * 1e6 / options.MPS)], the
    product and the quotient in double precision.  (The body only runs
    when [i < msgs], so [MPS] is not zero there.) *)
Definition uTimeReqd (o : options) (i : Z) : Z :=
  Math_floor (binary64 (binary64 (inject_Z i * 1000000) / Number (MPS o))).

(** The optional sleep of iteration [i]. *)
Definition pacing (o : options) (time0 now : hrtime) (i : Z) : list effect :=
  let uTimeSpent := uTimeDiff time0 now in
  if decide (uTimeReqd o i > uTimeSpent)
  then [uSleep (uTimeReqd o i - uTimeSpent)]
  else [].

(** The bookkeeping after a send. *)
Definition record_send (reqID : Z) (now : hrtime) (st : store) : store :=
  {| reqStartTime := <[reqID := now]> (reqStartTime st);
     reqEndTime := reqEndTime st;
     pendingCount := pendingCount st + 1;
     msgsSent := msgsSent st + 1;
     msgsReceived := msgsReceived st |}.

(** Where [senderThread] stands: in its [for] loop, in the wait for the
    last replies (with [lastSendTime]), or past [statsReport]. *)
Inductive phase :=
| Sending
| Draining (lastSendTime : hrtime)
| Reported (r : report).

Record machine := Machine {
  m_store : store;
  m_i : Z;
  m_phase : phase;
  m_out : list effect
}.

Definition machine_init : machine :=
  {| m_store := store_init; m_i := 0; m_phase := Sending; m_out := [] |}.

Section Run.
Context (o : options) (domains ips : list string) (time0 : hrtime).

(** One pass through the body of the [for] loop.  [None]: [encUInt32]
    raised. *)
Definition sender_body (env : turn_env) (m : machine) : option machine :=
  let i := m_i m in
  let sleep := pacing o time0 (env_now env) i in
  let reqID := i + 1 in
  let randDomain := pick domains (env_rand_domain env) in
  let randIP := pick ips (env_rand_ip env) in
  buf ← encUInt32 reqID;
  let msg := Message buf randDomain randIP in
  Some {| m_store := record_send reqID (env_sent_at env) (m_store m);
          m_i := i + 1;
          m_phase := Sending;
          m_out := m_out m ++ sleep ++ [SocketSend msg] |}.

(** One turn of [senderThread]: the loop test and the body, or the loop
    exit; then the polling of [pendingCount], and the report. *)
Definition sender_turn (env : turn_env) (m : machine) : option machine :=
  match m_phase m with
  | Sending =>
      if Qltb (inject_Z (m_i m)) (msgs o) then sender_body env m
      else Some {| m_store := m_store m; m_i := m_i m;
                   m_phase := Draining (env_now env);
                   m_out := m_out m ++ [SocketClose] |}
  | Draining lastSendTime =>
      if decide (uTimeDiff lastSendTime (env_now env) < 10 * 1000000
                 ∧ pendingCount (m_store m) > 0)
      then Some {| m_store := m_store m; m_i := m_i m;
                   m_phase := m_phase m;
                   m_out := m_out m ++ [uSleep 100000] |}
      else Some {| m_store := m_store m; m_i := m_i m;
                   m_phase := Reported (statsReport (m_store m));
                   m_out := m_out m |}
  | Reported _ => Some m
  end.

(** The events of a run: the sender takes a turn, or a reply arrives. *)
Inductive event :=
| Turn (env : turn_env)
| Reply (rawReqID : buffer) (now : hrtime).

Definition step (m : machine) (ev : event) : option machine :=
  match ev with
  | Turn env => sender_turn env m
  | Reply rawReqID now =>
      st ← on_message rawReqID now (m_store m);
      Some {| m_store := st; m_i := m_i m;
              m_phase := m_phase m; m_out := m_out m |}
  end.

(** A run from a given state; [None] when an exception escaped. *)
Fixpoint run (evs : list event) (m : machine) : option machine :=
  match evs with
  | [] => Some m
  | ev :: evs => step m ev ≫= run evs
  end.
(** The reply is for a request that was sent and has no end time yet. *)
Definition reply_matched (rawReqID : buffer) (st : store) : bool :=
  match readUInt32BE rawReqID with
  | Some reqID =>
      bool_decide (is_Some (reqStartTime st !! reqID))
      && bool_decide (¬ is_Some (reqEndTime st !! reqID))
  | None => false
  end.

(** Every reply of the schedule is matched at the point where it arrives. *)
Fixpoint replies_matched (evs : list event) (m : machine) : bool :=
  match evs with
  | [] => true
  | ev :: evs =>
      match ev with
      | Reply rawReqID _ => reply_matched rawReqID (m_store m)
      | Turn _ => true
      end
      && match step m ev with
         | Some m' => replies_matched evs m'
         | None => true
         end
  end.

(** The turns of a schedule with their request index, counted from [i]. *)
Fixpoint numbered (i : Z) (envs : list turn_env) : list (Z * turn_env) :=
  match envs with
  | [] => []
  | env :: envs => (i, env) :: numbered (i + 1) envs
  end.

(** The scheduled offset of request [i]: the floor of
    [i * 1_000_000 / rate], with the rate the double nearest to the one
    given and the quotient taken in double precision. *)
Definition scheduled_offset (i : Z) : Z :=
  Qfloor (binary64 (inject_Z (i * 1000000) / binary64 (MPS o))).

(** What the sender does for request index [i]: with the elapsed time the
    microseconds from the start reading to the reading at the top of the
    turn, when the elapsed time is below the scheduled offset it sets a
    timer of [(scheduled - elapsed) / 1000] whole milliseconds, and then
    it sends the request (with id [i + 1]). *)
Definition paced_send (i : Z) (env : turn_env) (chunk : list effect) : Prop :=
  let scheduled := scheduled_offset i in
  let elapsed := (nanos (env_now env) - nanos time0) / 1000 in
  ∃ msg, readUInt32BE (msg_id msg) = Some (i + 1)
         ∧ chunk = (if decide (elapsed < scheduled)
                    then [SetTimeout ((scheduled - elapsed) / 1000)] else [])
                   ++ [SocketSend msg].

(** The readings of turn [i] are in the range in which the code computes
    with integers exactly: the clock has not gone back since the start,
    and the scheduled offset is a microsecond count of at most 2^52 (so
    that the time to sleep, and its division by 1000, are exact too). *)
Definition turn_in_range (i : Z) (env : turn_env) : Prop :=
  hrtime_ok (env_now env)
  ∧ nanos time0 <= nanos (env_now env)
  ∧ scheduled_offset i <= 2 ^ 52.

End Run.

(** ** Definitions used by the statements: the specification's wording,
    invariants and sample data *)

(** The fractions reported by [statsReport]: max, 99.9, 99.0 and 90.0. *)
Definition reported_fractions : list Q := [1; 999 # 1000; 99 # 100; 90 # 100]%Q.

Definition ms_of_us (lat : Z) : Q := (inject_Z lat / 1000)%Q.

Ltac solve_fraction :=
  unfold reported_fractions;
  repeat first [apply list_elem_of_here | apply list_elem_of_further].

(** The percentile as the specification words it: over the sample sorted
    ascending, the index [round (p * n) - 1] clamped to [0, n - 1], and the
    value there divided by 1000. *)
Definition clamp (lo hi x : Z) : Z := Z.max lo (Z.min hi x).

Definition spec_percentile (sorted : list Z) (p : Q) : option Q :=
  let n := Z.of_nat (length sorted) in
  let index := clamp 0 (n - 1) (Math_round (p * inject_Z n) - 1) in
  (λ lat, inject_Z lat / 1000)%Q <$> sorted !! Z.to_nat index.

(** A store with three completed requests and one pending. *)
Definition store_three : store :=
  {| reqStartTime := {[ 1 := HrTime 10 0; 2 := HrTime 10 500000;
                        3 := HrTime 11 0; 4 := HrTime 11 900000 ]};
     reqEndTime := {[ 1 := HrTime 10 7000000; 2 := HrTime 10 3500000;
                      3 := HrTime 11 9000000 ]};
     pendingCount := 1; msgsSent := 4; msgsReceived := 3 |}.

(** A store with exactly one completed request, of latency 2500 us. *)
Definition store_one : store :=
  {| reqStartTime := {[ 1 := HrTime 3 100000; 2 := HrTime 3 200000 ]};
     reqEndTime := {[ 1 := HrTime 3 2600000 ]};
     pendingCount := 1; msgsSent := 2; msgsReceived := 1 |}.

(** The scheduled offset as the claim words it, in exact arithmetic:
    [floor (i * 1_000_000 / rate)]. *)
Definition claimed_offset (rate : Q) (i : Z) : Z :=
  Qfloor (inject_Z i * 1000000 / rate).


(** The number of passes through the sender's loop. *)
Definition loop_count (o : options) : Z := Z.max 0 (Qceiling (msgs o)).

(** The ids put on the wire, read back from the first frame. *)
Definition sent_ids (out : list effect) : list Z :=
  omap (λ e, match e with
             | SocketSend msg => readUInt32BE (msg_id msg)
             | _ => None
             end) out.

(** The sender's turns in a schedule. *)
Definition turn_envs (evs : list event) : list turn_env :=
  omap (λ ev, match ev with Turn env => Some env | Reply _ _ => None end) evs.


Tactic Notation "fields" :=
  cbn [m_store m_i m_phase m_out record_send
       reqStartTime reqEndTime pendingCount msgsSent msgsReceived].
Tactic Notation "fields" "in" hyp(H) :=
  cbn [m_store m_i m_phase m_out record_send
       reqStartTime reqEndTime pendingCount msgsSent msgsReceived] in H.

(** What holds of the machine at every point of every run. *)
Record inv (o : options) (m : machine) : Prop := Inv {
  inv_pending :
    pendingCount (m_store m) = msgsSent (m_store m) - msgsReceived (m_store m);
  inv_sent : msgsSent (m_store m) = m_i m;
  inv_i : 0 <= m_i m <= loop_count o;
  inv_done : m_phase m ≠ Sending → m_i m = loop_count o;
  inv_start : ∀ k, is_Some (reqStartTime (m_store m) !! k) ↔ 1 <= k <= m_i m;
  inv_ids : sent_ids (m_out m) = seqZ 1 (m_i m)
}.

(** What holds in addition while every reply answers a request that was
    sent and not yet answered: end times only under ids with a start
    time, and the two counters count the two maps. *)
Record matched_inv (m : machine) : Prop := MatchedInv {
  mi_dom : dom (reqEndTime (m_store m)) ⊆@{gset Z} dom (reqStartTime (m_store m));
  mi_start : Z.of_nat (size (reqStartTime (m_store m))) = msgsSent (m_store m);
  mi_end : Z.of_nat (size (reqEndTime (m_store m))) = msgsReceived (m_store m)
}.

(** Scenario A: rate 10 per second for half a second. *)
Definition scenario_A : options := {| MPS := 10; test_duration := 1 # 2 |}.


Definition sample_domains : list string := ["example.com"; "example.org"]%string.
Definition sample_ips : list string := ["192.0.2.1"; "198.51.100.7"]%string.
Definition sample_time0 : hrtime := HrTime 100 0.

(** A turn that starts [us] microseconds after [sample_time0]. *)
Definition turn_at (us : Z) : event :=
  Turn {| env_now := HrTime 100 (us * 1000);
          env_rand_domain := 1 # 3;
          env_rand_ip := 3 # 4;
          env_sent_at := HrTime 100 (us * 1000 + 20000) |}.

Definition reply_to (reqID : Z) (us : Z) : event :=
  Reply (default [] (encUInt32 reqID)) (HrTime 100 (us * 1000)).

(** Six turns of the sender, with the replies to requests 1 and 2. *)
Definition sample_schedule : list event :=
  [turn_at 0; turn_at 50000; reply_to 1 120000; turn_at 230000;
   reply_to 2 260000; turn_at 300000; turn_at 400000; turn_at 500000].

Definition sample_run (o : options) (evs : list event) : option machine :=
  run o sample_domains sample_ips sample_time0 evs machine_init.

(** A turn that starts [s] seconds and [ns] nanoseconds after
    [sample_time0]. *)
Definition turn_after (s ns : Z) : event :=
  Turn {| env_now := HrTime (100 + s) ns;
          env_rand_domain := 1 # 3;
          env_rand_ip := 3 # 4;
          env_sent_at := HrTime (100 + s) (ns + 20000) |}.

(** A slow rate, 0.56 requests a second, each turn at or past its
    scheduled offset; the eighth turn is 12.499999 s after the start. *)
Definition scenario_slow : options := {| MPS := 56 # 100; test_duration := 14 |}.

Definition slow_schedule : list event :=
  [turn_after 0 0; turn_after 2 0; turn_after 4 0; turn_after 6 0;
   turn_after 8 0; turn_after 10 0; turn_after 11 0;
   turn_after 12 499999000].

(** One request every ten seconds; the second turn is 9.999999 s after
    the start. *)
Definition scenario_tenth : options := {| MPS := 1 # 10; test_duration := 20 |}.

Definition tenth_schedule : list event :=
  [turn_after 0 0; turn_after 9 999999000].

(** The request with id [reqID] of the sample runs. *)
Definition sample_request (reqID : Z) : effect :=
  SocketSend (Message (default [] (encUInt32 reqID))
                      (Some "example.com"%string)
                      (Some "198.51.100.7"%string)).

Definition sample_final (o : options) (evs : list event) : machine :=
  default machine_init (sample_run o evs).

(** ** Reading the list files *)

Definition LF : ascii := "010"%char.
Definition CR : ascii := "013"%char.

(** Put a character in front of the first item. *)
Definition prepend (c : ascii) (items : list string) : list string :=
  match items with
  | item :: items => String c item :: items
  | [] => [String c EmptyString]
  end.

(** The characters of the file are modelled as [ascii]; only the line feed
    and the carriage return matter to the code. *)

(** [data.split(/\r?\n/)]: the separator matches at a position that holds
    a line feed, or a carriage return followed by a line feed; the pieces
    between the matches are kept, empty ones included. *)
Fixpoint split_newlines (data : string) : list string :=
  match data with
  | EmptyString => [EmptyString]
  | String c rest =>
      if Ascii.eqb c LF then EmptyString :: split_newlines rest
      else match rest with
           | String c' rest' =>
               if Ascii.eqb c CR && Ascii.eqb c' LF
               then EmptyString :: split_newlines rest'
               else prepend c (split_newlines rest)
           | EmptyString => prepend c (split_newlines rest)
           end
  end.

(** Load text file as array of lines, filter empty (the content of the
    file is the argument; a read error is raised before this point). *)
Definition getListFromTextFile (data : string) : list string :=
  filter (λ item, item ≠ EmptyString) (split_newlines data).

(** [items.join(sep)] *)
Definition join (sep : string) (items : list string) : string :=
  String.concat sep items.

(** The character occurs in the string. *)
Fixpoint occurs (c : ascii) (s : string) : Prop :=
  match s with
  | EmptyString => False
  | String a rest => a = c ∨ occurs c rest
  end.

(** The last character of the string is [c]. *)
Fixpoint ends_with (c : ascii) (s : string) : Prop :=
  match s with
  | EmptyString => False
  | String a EmptyString => a = c
  | String _ rest => ends_with c rest
  end.

(** A line that a list file can hold: not empty, no line feed inside, no
    carriage return at its end. *)
Definition plain_line (item : string) : Prop :=
  item ≠ EmptyString ∧ ¬ occurs LF item ∧ ¬ ends_with CR item.

(** ** Latencies of two maps *)

(** The latencies collected from a map of start times and a map of end
    times, as [latencies] collects them from the store. *)
Definition collect_latencies (starts ends : gmap Z hrtime) : list Z :=
  omap (λ '(reqID, t0), uTimeDiff t0 <$> ends !! reqID) (map_to_list starts).

(** ** Traces and schedules *)

(** A timer is not set to a negative delay. *)
Definition timer_ok (e : effect) : Prop :=
  match e with
  | SetTimeout ms => 0 <= ms
  | _ => True
  end.

(** The messages put on the wire. *)
Definition sent_messages (out : list effect) : list message :=
  omap (λ e, match e with SocketSend msg => Some msg | _ => None end) out.

(** The schedule without its replies. *)
Definition turns_only (evs : list event) : list event := Turn <$> turn_envs evs.

(** The clock reading that an event stores: the send time of a turn, the
    arrival time of a reply. *)
Definition ev_clock (ev : event) : hrtime :=
  match ev with
  | Turn env => env_sent_at env
  | Reply _ now => now
  end.

(** The stored clock readings never go back along the schedule. *)
Definition clock_ordered (evs : list event) : Prop :=
  StronglySorted (λ t t', nanos t <= nanos t') (ev_clock <$> evs).

(** The sample schedule followed by two polls of the wait for replies, the
    second more than ten seconds after the last send. *)
Definition sample_schedule_done : list event :=
  sample_schedule ++ [turn_at 600000; turn_at 11000000].

(** * Properties *)

(** ** The id on the wire: encoding and decoding *)

Lemma Z_of_byte_of_Z z : Z_of_byte (byte_of_Z z) = z mod 256.
Proof.
  unfold Z_of_byte, byte_of_Z.
  change 255 with (Z.ones 8). rewrite Z.land_ones by lia.
  change (2 ^ 8) with 256.
  assert (Hr : 0 <= z mod 256 < 256) by (apply Z.mod_pos_bound; lia).
  destruct (Byte.of_N (Z.to_N (z mod 256))) as [b|] eqn:E.
  - apply Byte.to_of_N in E. rewrite E. lia.
  - apply Byte.of_N_None_iff in E. lia.
Qed.

Lemma readUInt32BE_encUInt32 id :
  0 <= id < 2 ^ 32 -> encUInt32 id ≫= readUInt32BE = Some id.
Proof.
  intros Hid. unfold encUInt32, writeUInt32BE.
  destruct (decide _) as [_|]; [|lia]. cbn.
  rewrite !Z_of_byte_of_Z, !Z.shiftr_shiftr, !Z.shiftr_div_pow2 by lia.
  f_equal.
  change (id / 16777216 mod 256 * 16777216 + id / 65536 mod 256 * 65536
          + id / 256 mod 256 * 256 + id mod 256 = id).
  change (2 ^ 32) with 4294967296 in Hid.
  rewrite (Z.mod_small (id / 16777216) 256)
    by (split; [apply Z.div_pos; lia | apply Z.div_lt_upper_bound; lia]).
  pose proof (Z.div_mod id 256 ltac:(lia)).
  pose proof (Z.div_mod (id / 256) 256 ltac:(lia)).
  pose proof (Z.div_mod (id / 65536) 256 ltac:(lia)).
  replace (id / 65536) with (id / 256 / 256) in *
    by (rewrite Z.div_div by lia; reflexivity).
  replace (id / 16777216) with (id / 256 / 256 / 256) in *
    by (rewrite !Z.div_div by lia; reflexivity).
  lia.
Qed.

(** ** Rounding *)

Lemma Qfloor_between (x : Q) (a b : Z) :
  (inject_Z a <= x)%Q → (x < inject_Z (b + 1))%Q → a <= Qfloor x <= b.
Proof.
  intros Ha Hb. split.
  - rewrite <- (Qfloor_Z a). by apply Qfloor_resp_le.
  - cut (Qfloor x < b + 1); [lia|].
    rewrite Zlt_Qlt. eapply Qle_lt_trans; [apply Qfloor_le | done].
Qed.

Lemma Math_round_mono (x y : Q) : (x <= y)%Q → Math_round x <= Math_round y.
Proof.
  intros Hxy. apply Qfloor_resp_le. by apply Qplus_le_compat; [|apply Qle_refl].
Qed.

Lemma Math_round_Z (z : Z) : Math_round (inject_Z z) = z.
Proof.
  unfold Math_round.
  cut (z <= Qfloor (inject_Z z + (1 # 2)) <= z); [lia|].
  apply Qfloor_between.
  - rewrite <- (Qplus_0_r (inject_Z z)) at 1.
    by apply Qplus_le_compat; [apply Qle_refl|].
  - rewrite inject_Z_plus. by apply Qplus_lt_r.
Qed.

(** ** Double precision *)

Lemma binary64_eq (x y : Q) : (x == y)%Q → binary64 x = binary64 y.
Proof.
  intros Hxy. unfold binary64.
  assert (Hopp : (- x == - y)%Q) by (by apply Qopp_comp).
  rewrite (Qred_complete _ _ Hxy), (Qred_complete _ _ Hopp).
  by rewrite (Qcompare_comp x y Hxy 0%Q 0%Q (Qeq_refl 0%Q)).
Qed.

Lemma round_half_even_eq (x y : Q) :
  (x == y)%Q → round_half_even x = round_half_even y.
Proof.
  intros Hxy. unfold round_half_even. rewrite (Qfloor_comp x y Hxy).
  assert (Hd : (x - inject_Z (Qfloor y) == y - inject_Z (Qfloor y))%Q)
    by (apply Qplus_comp; [done | apply Qeq_refl]).
  by rewrite (Qcompare_comp _ _ Hd _ _ (Qeq_refl (1 # 2))).
Qed.

Lemma round_half_even_Z (z : Z) : round_half_even (inject_Z z) = z.
Proof.
  unfold round_half_even. rewrite Qfloor_Z.
  assert (Hlt : (inject_Z z - inject_Z z < 1 # 2)%Q).
  { apply Qlt_minus_iff. ring_simplify. done. }
  assert (E : (inject_Z z - inject_Z z ?= 1 # 2)%Q = Lt) by (by apply Qlt_alt).
  by rewrite E.
Qed.

Lemma pow2_Z (k : Z) : 0 <= k → (2 ^ k == inject_Z (2 ^ k))%Q.
Proof. intros Hk. symmetry. by apply (Zpower_Qpower 2). Qed.

Lemma ilog2_Z (n : Z) : 0 < n → ilog2 (inject_Z n) = Z.log2 n.
Proof.
  intros Hn. unfold ilog2. cbn [Qnum Qden inject_Z].
  change (Z.log2 1) with 0. rewrite Z.sub_0_r.
  assert (Hle : Qle_bool (2 ^ Z.log2 n) (inject_Z n) = true).
  { apply Qle_bool_iff. rewrite pow2_Z by apply Z.log2_nonneg.
    rewrite <- Zle_Qle. apply Z.log2_spec. done. }
  by rewrite Hle.
Qed.

(** An integer of at most 53 bits is a double. *)
Lemma binary64_Z (n : Z) :
  0 <= n <= 2 ^ 53 → (binary64 (inject_Z n) == inject_Z n)%Q.
Proof.
  intros [H0 H53]. destruct (decide (n = 0)) as [->|Hne]; [done|].
  assert (Hpos : 0 < n) by lia.
  unfold binary64.
  assert (Hgt : (inject_Z n ?= 0)%Q = Gt).
  { apply Qgt_alt. change 0%Q with (inject_Z 0). by rewrite <- Zlt_Qlt. }
  rewrite Hgt.
  rewrite (Qred_identity (inject_Z n)) by apply Z.gcd_1_r.
  unfold binary64_pos. rewrite ilog2_Z by done.
  pose proof (Z.log2_nonneg n) as HL0.
  assert (HL : Z.log2 n <= 53).
  { destruct (decide (Z.log2 n <= 53)); [done|].
    pose proof (Z.log2_spec n Hpos) as [Hlo _].
    assert (2 ^ 54 <= 2 ^ Z.log2 n) by (apply Z.pow_le_mono_r; lia).
    change (2 ^ 53) with 9007199254740992 in H53.
    change (2 ^ 54) with 18014398509481984 in *. lia. }
  rewrite Z.max_r by lia.
  destruct (decide (Z.log2 n = 53)) as [HL53|HL53].
  - assert (n = 2 ^ 53) as ->.
    { pose proof (Z.log2_spec n Hpos) as [Hlo _]. rewrite HL53 in Hlo. lia. }
    by vm_compute.
  - set (d := 52 - Z.log2 n). assert (Hd : 0 <= d) by (subst d; lia).
    replace (Z.log2 n - 52) with (- d) by (subst d; lia).
    assert (Hp : ¬ (2 ^ d == 0)%Q) by (by apply Qpower_not_0).
    assert (Hq : (inject_Z n / 2 ^ (- d) == inject_Z (n * 2 ^ d))%Q).
    { rewrite Qpower_opp, inject_Z_mult, <- pow2_Z by done. by field. }
    rewrite (round_half_even_eq _ _ Hq), round_half_even_Z.
    rewrite inject_Z_mult, <- pow2_Z, Qpower_opp by done. by field.
Qed.

Lemma binary64_whole (x : Q) (n : Z) :
  0 <= n <= 2 ^ 53 → (x == inject_Z n)%Q → (binary64 x == inject_Z n)%Q.
Proof. intros Hn Hx. rewrite (binary64_eq _ _ Hx). by apply binary64_Z. Qed.

(** ** Time differences in nanoseconds *)

Lemma uTimeDiff_div time0 time1 :
  uTimeDiff time0 time1 = (nanos time1 - nanos time0) / 1000.
Proof.
  unfold uTimeDiff, nanos.
  replace (hr_sec time1 * 1000000000 + hr_nsec time1
           - (hr_sec time0 * 1000000000 + hr_nsec time0))
    with ((hr_sec time1 - hr_sec time0) * 1000000 * 1000
          + (hr_nsec time1 - hr_nsec time0)) by lia.
  by rewrite Z.div_add_l.
Qed.

Lemma uTimeDiff_nonneg time0 time1 :
  nanos time0 <= nanos time1 → 0 <= uTimeDiff time0 time1.
Proof. intros Hle. rewrite uTimeDiff_div. apply Z.div_pos; lia. Qed.

Lemma uTimeDiff_range time0 time1 :
  hrtime_ok time0 → hrtime_ok time1 →
  - 2 ^ 33 * 1000000 <= uTimeDiff time0 time1 <= 2 ^ 33 * 1000000.
Proof.
  intros [Hs0 Hn0] [Hs1 Hn1]. unfold uTimeDiff.
  change (2 ^ 33) with 8589934592 in *.
  assert (-1000000 <= (hr_nsec time1 - hr_nsec time0) / 1000 < 1000000)
    by (Z.div_mod_to_equations; lia).
  lia.
Qed.

(** ** Sorting *)

Lemma before_numeric a b : before numeric a b ↔ a <= b.
Proof. unfold before, numeric. lia. Qed.

#[local] Instance before_numeric_total : Total (before numeric).
Proof. intros a b. rewrite !before_numeric. lia. Qed.

#[local] Instance before_numeric_trans : Transitive (before numeric).
Proof. intros a b c. rewrite !before_numeric. lia. Qed.

Lemma array_sort_numeric_sorted arr :
  StronglySorted Z.le (array_sort numeric arr).
Proof.
  pose proof (StronglySorted_merge_sort (before numeric) arr) as Hs.
  unfold array_sort. induction Hs as [|a l _ IH Hall]; constructor; [done|].
  eapply Forall_impl; [exact Hall|]. intros b. by rewrite before_numeric.
Qed.

Lemma array_sort_numeric_perm arr : array_sort numeric arr ≡ₚ arr.
Proof. apply merge_sort_Permutation. Qed.

Lemma array_sort_nonempty arr : arr ≠ [] → array_sort numeric arr ≠ [].
Proof.
  intros Hne Hs. apply Hne, Permutation_nil_r.
  rewrite <- Hs. symmetry. apply array_sort_numeric_perm.
Qed.

Lemma StronglySorted_lookup_le (l : list Z) (i j : nat) (x y : Z) :
  StronglySorted Z.le l → (i <= j)%nat →
  l !! i = Some x → l !! j = Some y → x <= y.
Proof.
  intros Hs. revert i j. induction Hs as [|a l Hs IH Hall]; intros i j Hij Hi Hj.
  - done.
  - destruct i as [|i], j as [|j]; simplify_eq/=; try lia.
    + rewrite Forall_forall in Hall. apply Hall. by eapply list_elem_of_lookup_2.
    + eapply (IH i j); [lia|done..].
Qed.

(** ** Percentiles *)

Lemma ms_of_us_mono a b : a <= b → (ms_of_us a <= ms_of_us b)%Q.
Proof. intros Hab. unfold ms_of_us, Qle. simpl. lia. Qed.

Lemma latPercIndex_mono lats p q :
  (p <= q)%Q → latPercIndex lats p <= latPercIndex lats q.
Proof.
  intros Hpq. unfold latPercIndex.
  cut (Math_round (p * inject_Z (Z.of_nat (length lats)))
       <= Math_round (q * inject_Z (Z.of_nat (length lats)))); [lia|].
  apply Math_round_mono, Qmult_le_compat_r; [done|].
  change 0%Q with (inject_Z 0). rewrite <- Zle_Qle. lia.
Qed.

Lemma latPercIndex_in_bounds lats p :
  lats ≠ [] → (1 # 2 <= p)%Q → (p <= 1)%Q →
  in_bounds lats (latPercIndex lats p).
Proof.
  intros Hne Hlo Hhi. unfold in_bounds, latPercIndex, Math_round.
  set (n := Z.of_nat (length lats)).
  assert (Hn : 1 <= n) by (destruct lats; [done | subst n; simpl; lia]).
  assert (HnQ : (1 <= inject_Z n)%Q)
    by (change 1%Q with (inject_Z 1); rewrite <- Zle_Qle; lia).
  cut (1 <= Qfloor (p * inject_Z n + (1 # 2)) <= n); [lia|].
  apply Qfloor_between.
  - apply Qle_trans with ((1 # 2) * 1 + (1 # 2))%Q; [by compute|].
    apply Qplus_le_compat; [|apply Qle_refl].
    apply Qmult_le_compat_nonneg; split; done.
  - rewrite inject_Z_plus.
    apply Qle_lt_trans with (inject_Z n + (1 # 2))%Q; [|by apply Qplus_lt_r].
    apply Qplus_le_compat; [|apply Qle_refl].
    rewrite <- (Qmult_1_l (inject_Z n)) at 2.
    apply Qmult_le_compat_r; [done|].
    apply Qle_trans with 1%Q; done.
Qed.

Lemma array_get_in_bounds {A} (arr : list A) idx :
  in_bounds arr idx → ∃ x, arr !! Z.to_nat idx = Some x ∧ array_get arr idx = Some x.
Proof.
  intros [H0 Hlen]. unfold array_get. destruct (decide _) as [_|]; [|lia].
  destruct (lookup_lt_is_Some_2 arr (Z.to_nat idx)) as [x Hx]; [lia|]. eauto.
Qed.

Lemma reported_fraction_range p :
  p ∈ reported_fractions → (1 # 2 <= p)%Q ∧ (p <= 1)%Q.
Proof.
  unfold reported_fractions. rewrite !elem_of_cons, elem_of_nil.
  intros [->|[->|[->|[->|[]]]]]; split; done.
Qed.

(** On a sample that is not empty, each reported fraction reads an index
    inside the array. *)
Lemma latPercMs_nonempty lats p :
  lats ≠ [] → p ∈ reported_fractions →
  ∃ lat, in_bounds lats (latPercIndex lats p)
         ∧ lats !! Z.to_nat (latPercIndex lats p) = Some lat
         ∧ latPercMs lats p = JsNum (ms_of_us lat).
Proof.
  intros Hne [Hlo Hhi]%reported_fraction_range.
  pose proof (latPercIndex_in_bounds lats p Hne Hlo Hhi) as Hb.
  destruct (array_get_in_bounds lats _ Hb) as (lat & Hl & Hg).
  exists lat. split_and!; [done..|]. unfold latPercMs. by rewrite Hg.
Qed.

Lemma latPercMs_spec_percentile lats p :
  lats ≠ [] → p ∈ reported_fractions →
  ∃ q, spec_percentile lats p = Some q ∧ latPercMs lats p = JsNum q.
Proof.
  intros Hne Hp.
  destruct (latPercMs_nonempty lats p Hne Hp) as (lat & [H0 Hn] & Hl & Hr).
  exists (ms_of_us lat). split; [|done].
  unfold spec_percentile, clamp. fold (latPercIndex lats p).
  rewrite Z.min_r, Z.max_r by lia. by rewrite Hl.
Qed.

(** C5.  On a sample that is not empty, [statsReport] sorts the latencies
    ascending (the sorted array is an ordered rearrangement of the collected
    latencies) and each of the four reported values is the value at index
    [round (p * n) - 1], clamped to [0, n - 1], divided by 1000, for [p] in
    1.0, 0.999, 0.99 and 0.90.  The code does not clamp; on these inputs the
    unclamped index is already in range. *)
Theorem statsReport_percentile_formula st :
  latencies st ≠ [] →
  ∃ sorted,
    StronglySorted Z.le sorted ∧ sorted ≡ₚ latencies st ∧
    ∃ qmax q999 q99 q90,
      (spec_percentile sorted 1 = Some qmax
       ∧ rep_max (statsReport st) = JsNum qmax)
      ∧ (spec_percentile sorted (999 # 1000) = Some q999
         ∧ rep_p999 (statsReport st) = JsNum q999)
      ∧ (spec_percentile sorted (99 # 100) = Some q99
         ∧ rep_p99 (statsReport st) = JsNum q99)
      ∧ (spec_percentile sorted (90 # 100) = Some q90
         ∧ rep_p90 (statsReport st) = JsNum q90).
Proof.
  intros Hne. exists (array_sort numeric (latencies st)).
  split; [apply array_sort_numeric_sorted|].
  split; [apply array_sort_numeric_perm|].
  apply array_sort_nonempty in Hne.
  pose proof (latPercMs_spec_percentile _ 1 Hne) as (qmax & ?).
  { solve_fraction. }
  pose proof (latPercMs_spec_percentile _ (999 # 1000) Hne) as (q999 & ?).
  { solve_fraction. }
  pose proof (latPercMs_spec_percentile _ (99 # 100) Hne) as (q99 & ?).
  { solve_fraction. }
  pose proof (latPercMs_spec_percentile _ (90 # 100) Hne) as (q90 & ?).
  { solve_fraction. }
  by exists qmax, q999, q99, q90.
Qed.

Lemma latencies_store_three :
  array_sort numeric (latencies store_three) = [3000; 7000; 9000].
Proof. by vm_compute. Qed.

Lemma latencies_store_three_nonempty : latencies store_three ≠ [].
Proof. by vm_compute. Qed.

Lemma statsReport_percentile_formula_witness :
  ∃ sorted,
    StronglySorted Z.le sorted ∧ sorted ≡ₚ latencies store_three ∧
    ∃ qmax q999 q99 q90,
      (spec_percentile sorted 1 = Some qmax
       ∧ rep_max (statsReport store_three) = JsNum qmax)
      ∧ (spec_percentile sorted (999 # 1000) = Some q999
         ∧ rep_p999 (statsReport store_three) = JsNum q999)
      ∧ (spec_percentile sorted (99 # 100) = Some q99
         ∧ rep_p99 (statsReport store_three) = JsNum q99)
      ∧ (spec_percentile sorted (90 # 100) = Some q90
         ∧ rep_p90 (statsReport store_three) = JsNum q90).
Proof.
  apply (statsReport_percentile_formula store_three).
  vm_compute. discriminate.
Defined.

(** C6.  On a sample that is not empty the four reported values are
    numbers and are ordered: P(0.90) <= P(0.99) <= P(0.999) <= P(1.0). *)
Theorem statsReport_percentiles_ordered st :
  latencies st ≠ [] →
  ∃ p90 p99 p999 pmax,
    rep_p90 (statsReport st) = JsNum p90
    ∧ rep_p99 (statsReport st) = JsNum p99
    ∧ rep_p999 (statsReport st) = JsNum p999
    ∧ rep_max (statsReport st) = JsNum pmax
    ∧ (p90 <= p99)%Q ∧ (p99 <= p999)%Q ∧ (p999 <= pmax)%Q.
Proof.
  intros Hne%array_sort_nonempty.
  pose proof (array_sort_numeric_sorted (latencies st)) as Hs.
  unfold statsReport. cbn [rep_p90 rep_p99 rep_p999 rep_max].
  set (lats := array_sort numeric (latencies st)) in *.
  destruct (latPercMs_nonempty lats (90 # 100) Hne) as (l90 & [? ?] & Hl90 & ->);
    [solve_fraction|].
  destruct (latPercMs_nonempty lats (99 # 100) Hne) as (l99 & [? ?] & Hl99 & ->);
    [solve_fraction|].
  destruct (latPercMs_nonempty lats (999 # 1000) Hne) as (l999 & [? ?] & Hl999 & ->);
    [solve_fraction|].
  destruct (latPercMs_nonempty lats 1 Hne) as (lmax & [? ?] & Hlmax & ->);
    [solve_fraction|].
  pose proof (latPercIndex_mono lats (90 # 100) (99 # 100) ltac:(done)).
  pose proof (latPercIndex_mono lats (99 # 100) (999 # 1000) ltac:(done)).
  pose proof (latPercIndex_mono lats (999 # 1000) 1 ltac:(done)).
  exists (ms_of_us l90), (ms_of_us l99), (ms_of_us l999), (ms_of_us lmax).
  split_and!; try done; apply ms_of_us_mono.
  - refine (StronglySorted_lookup_le lats _ _ _ _ Hs _ Hl90 Hl99). lia.
  - refine (StronglySorted_lookup_le lats _ _ _ _ Hs _ Hl99 Hl999). lia.
  - refine (StronglySorted_lookup_le lats _ _ _ _ Hs _ Hl999 Hlmax). lia.
Qed.

Lemma statsReport_percentiles_ordered_witness :
  ∃ p90 p99 p999 pmax,
    rep_p90 (statsReport store_three) = JsNum p90
    ∧ rep_p99 (statsReport store_three) = JsNum p99
    ∧ rep_p999 (statsReport store_three) = JsNum p999
    ∧ rep_max (statsReport store_three) = JsNum pmax
    ∧ (p90 <= p99)%Q ∧ (p99 <= p999)%Q ∧ (p999 <= pmax)%Q.
Proof.
  apply (statsReport_percentiles_ordered store_three).
  vm_compute. discriminate.
Defined.

(** C7.  With exactly one completed latency [L], all four reported values
    are [L / 1000]. *)
Theorem statsReport_single_latency st L :
  latencies st = [L] →
  rep_max (statsReport st) = JsNum (inject_Z L / 1000)
  ∧ rep_p999 (statsReport st) = JsNum (inject_Z L / 1000)
  ∧ rep_p99 (statsReport st) = JsNum (inject_Z L / 1000)
  ∧ rep_p90 (statsReport st) = JsNum (inject_Z L / 1000).
Proof.
  intros HL. unfold statsReport. rewrite HL.
  cbn [rep_max rep_p999 rep_p99 rep_p90].
  change (array_sort numeric [L]) with [L].
  split_and!; reflexivity.
Qed.

Lemma statsReport_single_latency_witness :
  rep_max (statsReport store_one) = JsNum (inject_Z 2500 / 1000)
  ∧ rep_p999 (statsReport store_one) = JsNum (inject_Z 2500 / 1000)
  ∧ rep_p99 (statsReport store_one) = JsNum (inject_Z 2500 / 1000)
  ∧ rep_p90 (statsReport store_one) = JsNum (inject_Z 2500 / 1000).
Proof.
  apply (statsReport_single_latency store_one 2500).
  vm_compute. reflexivity.
Defined.

(** C4, as stated, fails on the initial store: no latency is completed, and
    the index read for the maximum is -1, outside the (empty) array; the
    value reported is the [NaN] of [undefined / 1000]. *)
Lemma statsReport_empty_reads_out_of_bounds :
  let lats := array_sort numeric (latencies store_init) in
  latencies store_init = []
  ∧ ¬ in_bounds lats (latPercIndex lats 1)
  ∧ array_get lats (latPercIndex lats 1) = None
  ∧ rep_max (statsReport store_init) = JsNaN.
Proof.
  split_and!; try reflexivity.
  intros [H0 _]. vm_compute in H0. by apply H0.
Qed.

(** C4, amended.  With no completed latency [statsReport] still returns
    (it is a total function): for each of the four fractions it reads index
    -1 of the empty array, which is [undefined], and reports [NaN]. *)
Theorem statsReport_empty_reports_NaN st :
  latencies st = [] →
  let lats := array_sort numeric (latencies st) in
  Forall (λ p, latPercIndex lats p = -1 ∧ array_get lats (latPercIndex lats p) = None)
         reported_fractions
  ∧ rep_max (statsReport st) = JsNaN
  ∧ rep_p999 (statsReport st) = JsNaN
  ∧ rep_p99 (statsReport st) = JsNaN
  ∧ rep_p90 (statsReport st) = JsNaN.
Proof.
  intros Hl lats. subst lats. unfold statsReport. rewrite Hl.
  cbn [rep_max rep_p999 rep_p99 rep_p90].
  change (array_sort numeric []) with (@nil Z).
  split_and!; try reflexivity.
  unfold reported_fractions. repeat constructor.
Qed.

Lemma statsReport_empty_reports_NaN_witness :
  let lats := array_sort numeric (latencies store_init) in
  Forall (λ p, latPercIndex lats p = -1 ∧ array_get lats (latPercIndex lats p) = None)
         reported_fractions
  ∧ rep_max (statsReport store_init) = JsNaN
  ∧ rep_p999 (statsReport store_init) = JsNaN
  ∧ rep_p99 (statsReport store_init) = JsNaN
  ∧ rep_p90 (statsReport store_init) = JsNaN.
Proof.
  apply (statsReport_empty_reports_NaN store_init).
  reflexivity.
Defined.

(** ** The id on the wire *)

(** C10.  For every id in [0, 2^32) the sender's [encUInt32] yields a
    buffer of four bytes, and the receiver's [readUInt32BE(0)] on that
    buffer gives the id back. *)
Theorem encUInt32_readUInt32BE_roundtrip id :
  0 <= id < 2 ^ 32 →
  ∃ buf, encUInt32 id = Some buf ∧ length buf = 4%nat
         ∧ readUInt32BE buf = Some id.
Proof.
  intros Hid. pose proof (readUInt32BE_encUInt32 id Hid) as Hrt.
  unfold encUInt32, writeUInt32BE in *.
  destruct (decide _) as [_|]; [|lia]. eauto.
Qed.

Lemma encUInt32_readUInt32BE_roundtrip_witness :
  ∃ buf, encUInt32 3735928559 = Some buf ∧ length buf = 4%nat
         ∧ readUInt32BE buf = Some 3735928559.
Proof.
  apply (encUInt32_readUInt32BE_roundtrip 3735928559). lia.
Defined.

Example encUInt32_big_endian :
  encUInt32 3735928559 = Some [xde; xad; xbe; xef].
Proof. reflexivity. Qed.

Example encUInt32_out_of_range : encUInt32 (2 ^ 32) = None.
Proof. reflexivity. Qed.

(** ** Receiver *)

Lemma latencies_collect st :
  latencies st = collect_latencies (reqStartTime st) (reqEndTime st).
Proof. reflexivity. Qed.

Lemma collect_latencies_insert starts ends k t0 :
  starts !! k = None →
  collect_latencies (<[k := t0]> starts) ends
  ≡ₚ match ends !! k with Some t1 => [uTimeDiff t0 t1] | None => [] end
     ++ collect_latencies starts ends.
Proof.
  intros Hk. unfold collect_latencies.
  rewrite (map_to_list_insert starts k t0 Hk). cbn.
  by destruct (ends !! k).
Qed.

Lemma collect_latencies_end_other starts ends k now :
  starts !! k = None →
  collect_latencies starts (<[k := now]> ends) = collect_latencies starts ends.
Proof.
  intros Hk. unfold collect_latencies.
  apply list_omap_ext, Forall_Forall2_diag, Forall_forall.
  intros [j t0] Hj%elem_of_map_to_list.
  rewrite lookup_insert_ne; [done|]. congruence.
Qed.

(** An end time under an id that has no start time adds no latency. *)
Lemma latencies_unknown_end st reqEnd' reqID now :
  reqStartTime st !! reqID = None →
  reqEnd' = <[reqID := now]> (reqEndTime st) →
  omap (λ '(k, t0), uTimeDiff t0 <$> reqEnd' !! k)
       (map_to_list (reqStartTime st))
  = latencies st.
Proof.
  intros Hnone ->. unfold latencies.
  apply list_omap_ext, Forall_Forall2_diag, Forall_forall.
  intros [k t0] Hk%elem_of_map_to_list.
  rewrite lookup_insert_ne; [done|]. congruence.
Qed.

(** C2, as stated, fails: a reply with id 7 on the initial store (nothing
    sent) leaves an end time under 7 and no start time. *)
Lemma on_message_unknown_id_dangling :
  ∃ st', on_message [x00; x00; x00; x07] (HrTime 5 0) store_init = Some st'
         ∧ reqStartTime store_init !! 7 = None
         ∧ reqStartTime st' !! 7 = None
         ∧ reqEndTime st' !! 7 = Some (HrTime 5 0).
Proof. eexists. split; [reflexivity|]. by vm_compute. Qed.

(** C2, amended.  A reply whose id has no start time is handled without an
    exception: [received] goes up by one, [pending] down by one, the start
    times are untouched, and an end time IS recorded under that id, so a
    record with only an end time exists.  The latencies that a report
    made at that point collects are the same as before the reply.  The
    record stays: when a request with that id is sent afterwards, at
    [t0], the report collects one more latency, from [t0] to the arrival
    of the reply. *)
Theorem on_message_unknown_id rawReqID now st reqID :
  readUInt32BE rawReqID = Some reqID →
  reqStartTime st !! reqID = None →
  ∃ st', on_message rawReqID now st = Some st'
         ∧ msgsReceived st' = msgsReceived st + 1
         ∧ pendingCount st' = pendingCount st - 1
         ∧ msgsSent st' = msgsSent st
         ∧ reqStartTime st' = reqStartTime st
         ∧ reqEndTime st' !! reqID = Some now
         ∧ latencies st' = latencies st
         ∧ (∀ t0, latencies (record_send reqID t0 st')
                  ≡ₚ uTimeDiff t0 now :: latencies st).
Proof.
  intros Hid Hnone. unfold on_message. rewrite Hid. cbn.
  eexists. split; [reflexivity|]. cbn.
  split_and!; try done.
  - apply lookup_insert_eq.
  - by apply (latencies_unknown_end st _ reqID now).
  - intros t0. rewrite !latencies_collect. cbn.
    rewrite (collect_latencies_insert _ _ _ _ Hnone), lookup_insert_eq.
    by rewrite collect_latencies_end_other.
Qed.

Lemma on_message_unknown_id_witness :
  ∃ st', on_message [x00; x00; x00; x07] (HrTime 5 0) store_one = Some st'
         ∧ msgsReceived st' = msgsReceived store_one + 1
         ∧ pendingCount st' = pendingCount store_one - 1
         ∧ msgsSent st' = msgsSent store_one
         ∧ reqStartTime st' = reqStartTime store_one
         ∧ reqEndTime st' !! 7 = Some (HrTime 5 0)
         ∧ latencies st' = latencies store_one
         ∧ (∀ t0, latencies (record_send 7 t0 st')
                  ≡ₚ uTimeDiff t0 (HrTime 5 0) :: latencies store_one).
Proof.
  apply (on_message_unknown_id _ _ store_one 7); reflexivity.
Defined.

(** The record left by a reply for an id not yet sent counts once the id
    is sent: reply at 5 s, request 7 sent at 6 s, latency -1 s. *)
Example on_message_unknown_id_then_sent :
  ∃ st', on_message [x00; x00; x00; x07] (HrTime 5 0) store_init = Some st'
         ∧ latencies st' = []
         ∧ latencies (record_send 7 (HrTime 6 0) st') = [-1000000].
Proof. eexists. split; [reflexivity|]. by vm_compute. Qed.

(** The frame must hold four bytes; a shorter one makes the callback
    raise. *)
Example on_message_short_frame :
  on_message [x00; x07] (HrTime 5 0) store_init = None.
Proof. reflexivity. Qed.

(** ** Runs of the sender and the receiver *)

Lemma turn_envs_cons ev evs :
  turn_envs (ev :: evs)
  = match ev with
    | Turn env => env :: turn_envs evs
    | Reply _ _ => turn_envs evs
    end.
Proof. by destruct ev. Qed.

Lemma Qltb_ceiling (i : Z) (q : Q) :
  Qltb (inject_Z i) q = true ↔ i < Qceiling q.
Proof.
  unfold Qltb. split.
  - destruct (inject_Z i ?= q)%Q eqn:E; try done. intros _.
    apply Qlt_alt in E. rewrite Zlt_Qlt.
    eapply Qlt_le_trans; [exact E | apply Qle_ceiling].
  - intros Hi.
    assert (Hlt : (inject_Z i < q)%Q).
    { eapply Qle_lt_trans; [|apply Qceiling_lt]. rewrite <- Zle_Qle. lia. }
    assert (E : (inject_Z i ?= q)%Q = Lt) by (by apply Qlt_alt).
    by rewrite E.
Qed.

Lemma seqZ_snoc m n : 0 <= n → seqZ m (n + 1) = seqZ m n ++ [m + n].
Proof.
  intros Hn. rewrite <- (Z2Nat.id n) at 1 2 3 by done.
  rewrite <- (seqZ_S m (Z.to_nat n)). f_equal. lia.
Qed.

Lemma StronglySorted_seqZ m n : StronglySorted Z.lt (seqZ m n).
Proof.
  destruct (decide (0 <= n)) as [Hn|Hn]; [|rewrite seqZ_nil by lia; constructor].
  rewrite <- (Z2Nat.id n) by done. clear Hn.
  induction (Z.to_nat n) as [|k IH]; [constructor|].
  rewrite seqZ_S. apply StronglySorted_app_2; [|done|repeat constructor].
  intros x y Hx%elem_of_seqZ ->%list_elem_of_singleton. lia.
Qed.

Lemma sent_ids_app out1 out2 :
  sent_ids (out1 ++ out2) = sent_ids out1 ++ sent_ids out2.
Proof. apply omap_app. Qed.

Lemma sent_ids_pacing o time0 now i : sent_ids (pacing o time0 now i) = [].
Proof. unfold pacing. by destruct (decide _). Qed.

Section RunFacts.
Context (o : options) (domains ips : list string) (time0 : hrtime).

#[local] Abbreviation run' := (run o domains ips time0).
#[local] Abbreviation step' := (step o domains ips time0).
#[local] Abbreviation sender_turn' := (sender_turn o domains ips time0).
#[local] Abbreviation sender_body' := (sender_body o domains ips time0).
#[local] Abbreviation replies_matched' := (replies_matched o domains ips time0).
#[local] Abbreviation paced_send' := (paced_send o time0).

Lemma inv_init : inv o machine_init.
Proof.
  split; cbn; try done.
  - unfold loop_count. lia.
  - intros k. rewrite lookup_empty. split; [by intros [? ?] | lia].
Qed.

Lemma sender_body_Some env m m' :
  sender_body' env m = Some m' →
  ∃ buf, encUInt32 (m_i m + 1) = Some buf
         ∧ readUInt32BE buf = Some (m_i m + 1)
         ∧ 0 <= m_i m + 1 < 2 ^ 32
         ∧ m' = {| m_store := record_send (m_i m + 1) (env_sent_at env) (m_store m);
                   m_i := m_i m + 1;
                   m_phase := Sending;
                   m_out := m_out m ++ pacing o time0 (env_now env) (m_i m)
                            ++ [SocketSend (Message buf (pick domains (env_rand_domain env))
                                                    (pick ips (env_rand_ip env)))] |}.
Proof.
  unfold sender_body. intros Hb.
  destruct (encUInt32 (m_i m + 1)) as [buf|] eqn:Hbuf; [|done].
  assert (Hr : 0 <= m_i m + 1 < 2 ^ 32).
  { unfold encUInt32, writeUInt32BE in Hbuf. by destruct (decide _). }
  pose proof (readUInt32BE_encUInt32 _ Hr) as Hrt. rewrite Hbuf in Hrt.
  cbn in Hb. exists buf. by simplify_eq.
Qed.

Lemma inv_sender_body env m m' :
  inv o m → Qltb (inject_Z (m_i m)) (msgs o) = true →
  sender_body' env m = Some m' → inv o m'.
Proof.
  intros [Hp Hs Hi Hd Hst Hids] Hlt%Qltb_ceiling
    (buf & Hbuf & Hread & Hr & ->)%sender_body_Some.
  split; fields.
  - lia.
  - lia.
  - unfold loop_count in *. lia.
  - done.
  - intros k. destruct (decide (k = m_i m + 1)) as [->|Hne].
    + rewrite lookup_insert_eq. split; [lia | by eauto].
    + rewrite lookup_insert_ne by done. rewrite Hst. lia.
  - rewrite !sent_ids_app, sent_ids_pacing, Hids.
    cbn. rewrite Hread. cbn.
    rewrite seqZ_snoc by lia. f_equal. f_equal. lia.
Qed.

Lemma inv_step m ev m' : inv o m → step' m ev = Some m' → inv o m'.
Proof.
  intros Hinv Hstep. destruct ev as [env|rawReqID now]; cbn in Hstep.
  - unfold sender_turn in Hstep.
    destruct (m_phase m) as [|lastSendTime|r] eqn:Hph.
    + destruct (Qltb _ _) eqn:Hlt; [by eapply inv_sender_body|].
      destruct Hinv as [Hp Hs Hi Hd Hst Hids]. simplify_eq.
      split; fields; try done.
      * intros _. apply not_true_iff_false in Hlt.
        rewrite Qltb_ceiling in Hlt. unfold loop_count in *. lia.
      * by rewrite sent_ids_app, Hids, app_nil_r.
    + destruct Hinv as [Hp Hs Hi Hd Hst Hids].
      destruct (decide _); simplify_eq; split; fields; try done.
      * intros _. apply Hd. by rewrite Hph.
      * by rewrite sent_ids_app, Hids, app_nil_r.
      * intros _. apply Hd. by rewrite Hph.
    + by simplify_eq.
  - unfold on_message in Hstep.
    destruct (readUInt32BE rawReqID) as [reqID|]; [|done]. cbn in Hstep.
    destruct Hinv as [Hp Hs Hi Hd Hst Hids]. simplify_eq.
    split; fields; try done. lia.
Qed.

Lemma inv_run evs m m' : inv o m → run' evs m = Some m' → inv o m'.
Proof.
  revert m. induction evs as [|ev evs IH]; intros m Hinv Hrun; cbn in Hrun.
  - by simplify_eq.
  - destruct (step' m ev) as [m1|] eqn:Hstep; [|done]. cbn in Hrun.
    eapply IH; [|done]. by eapply inv_step.
Qed.
(** Once the loop is left the sender never re-enters it. *)
Lemma step_finished m ev m' :
  step' m ev = Some m' → m_phase m ≠ Sending → m_phase m' ≠ Sending.
Proof.
  intros Hstep Hph. destruct ev as [env|rawReqID now]; cbn in Hstep.
  - unfold sender_turn in Hstep. destruct (m_phase m) eqn:E; [done|..].
    + destruct (decide _); simplify_eq; fields; done.
    + simplify_eq. by rewrite E.
  - destruct (on_message _ _ _); simplify_eq/=. done.
Qed.

Lemma run_finished evs m m' :
  run' evs m = Some m' → m_phase m ≠ Sending → m_phase m' ≠ Sending.
Proof.
  revert m. induction evs as [|ev evs IH]; intros m Hrun Hph; cbn in Hrun.
  - by simplify_eq.
  - destruct (step' m ev) as [m1|] eqn:Hstep; [|done]. cbn in Hrun.
    eapply IH; [done|]. by eapply step_finished.
Qed.





Lemma Math_round_integer (x : Q) (n : Z) : (x == inject_Z n)%Q → Math_round x = n.
Proof. intros Hx. unfold Math_round. rewrite Hx. apply Math_round_Z. Qed.


(** C9.  In every run the ids put on the wire are 1, 2, 3, ... in this
    order, one per request sent: they start at 1, increase, and are
    distinct.  With rate 10 and duration 0.5 s, once the loop is left they
    are exactly 1, 2, 3, 4, 5. *)
Theorem request_ids evs m :
  run' evs machine_init = Some m →
  sent_ids (m_out m) = seqZ 1 (msgsSent (m_store m))
  ∧ NoDup (sent_ids (m_out m))
  ∧ StronglySorted Z.lt (sent_ids (m_out m))
  ∧ ((MPS o == 10)%Q → (test_duration o == 1 # 2)%Q → m_phase m ≠ Sending →
     sent_ids (m_out m) = [1; 2; 3; 4; 5]).
Proof.
  intros Hrun.
  pose proof (inv_run _ _ _ inv_init Hrun) as [Hp Hs Hi Hd Hst Hids].
  rewrite Hids, Hs. split_and!.
  - done.
  - apply NoDup_seqZ.
  - apply StronglySorted_seqZ.
  - intros Hrate Hdur Hph. rewrite (Hd Hph). unfold loop_count, msgs.
    unfold Number.
    rewrite (binary64_eq _ _ Hrate), (binary64_eq _ _ Hdur).
    reflexivity.
Qed.

(** *** Counters *)

Lemma matched_inv_init : matched_inv machine_init.
Proof. split; cbn; [set_solver|done..]. Qed.

Lemma matched_inv_step m ev m' :
  inv o m → matched_inv m → step' m ev = Some m' →
  match ev with
  | Reply rawReqID _ => reply_matched rawReqID (m_store m) = true
  | Turn _ => True
  end →
  matched_inv m'.
Proof.
  intros Hinv [Hdom Hstart Hend] Hstep Hev.
  destruct ev as [env|rawReqID now]; cbn in Hstep.
  - unfold sender_turn in Hstep. destruct (m_phase m).
    + destruct (Qltb _ _); [|by simplify_eq].
      apply sender_body_Some in Hstep as (buf & _ & _ & _ & ->).
      assert (Hfresh : reqStartTime (m_store m) !! (m_i m + 1) = None).
      { apply eq_None_not_Some. rewrite (inv_start _ _ Hinv). lia. }
      split; fields.
      * rewrite dom_insert_L. set_solver.
      * rewrite map_size_insert_None by done. lia.
      * done.
    + destruct (decide _); by simplify_eq.
    + by simplify_eq.
  - unfold reply_matched in Hev. unfold on_message in Hstep.
    destruct (readUInt32BE rawReqID) as [reqID|]; [|done]. cbn in Hstep.
    apply andb_true_iff in Hev as [Hs%bool_decide_eq_true He%bool_decide_eq_true].
    simplify_eq. split; fields.
    + rewrite dom_insert_L. apply elem_of_dom in Hs.
      intros k [->%elem_of_singleton|Hk]%elem_of_union; [done | by apply Hdom].
    + done.
    + rewrite map_size_insert_None by (by apply eq_None_not_Some). lia.
Qed.

Lemma matched_inv_run evs m m' :
  inv o m → matched_inv m → run' evs m = Some m' →
  replies_matched' evs m = true → matched_inv m'.
Proof.
  revert m. induction evs as [|ev evs IH]; intros m Hinv Hm Hrun Hev;
    cbn in Hrun.
  - by simplify_eq.
  - cbn [replies_matched] in Hev. apply andb_true_iff in Hev as [Hev Hevs].
    destruct (step' m ev) as [m1|] eqn:Hstep; [|done]. cbn in Hrun.
    eapply (IH m1); [by eapply inv_step| |done..].
    eapply matched_inv_step; [done..|]. by destruct ev.
Qed.

Lemma matched_inv_pending m :
  inv o m → matched_inv m → 0 <= pendingCount (m_store m).
Proof.
  intros Hinv [Hdom Hstart Hend]. rewrite (inv_pending _ _ Hinv).
  apply subseteq_size in Hdom. rewrite !size_dom in Hdom. lia.
Qed.

Lemma run_app evs evs' m :
  run' (evs ++ evs') m = run' evs m ≫= run' evs'.
Proof.
  revert m. induction evs as [|ev evs IH]; intros m; cbn; [done|].
  destruct (step' m ev) as [m1|]; cbn; [apply IH | done].
Qed.

(** C3, amended.  At every point of every run (after any prefix [evs] of
    the events) [pending = sent - received].  [pending] is not negative
    there when every reply so far was for a request already sent and not
    yet answered. *)
Theorem counters_invariant evs evs' m :
  run' (evs ++ evs') machine_init = Some m →
  ∃ m1, run' evs machine_init = Some m1
        ∧ pendingCount (m_store m1)
          = msgsSent (m_store m1) - msgsReceived (m_store m1)
        ∧ (replies_matched' evs machine_init = true →
           0 <= pendingCount (m_store m1)).
Proof.
  rewrite run_app. intros Hrun.
  destruct (run' evs machine_init) as [m1|] eqn:Hrun1; [|done].
  pose proof (inv_run _ _ _ inv_init Hrun1) as Hinv.
  exists m1. split_and!; [done|apply Hinv|].
  intros Hmatched. apply matched_inv_pending; [done|].
  by eapply matched_inv_run; [apply inv_init | apply matched_inv_init |..].
Qed.

(** *** Pacing *)

Lemma uTimeReqd_scheduled i :
  0 <= i < 2 ^ 32 → uTimeReqd o i = scheduled_offset o i.
Proof.
  intros Hi. unfold uTimeReqd, scheduled_offset, Math_floor. f_equal.
  unfold Number. apply binary64_eq, Qdiv_comp; [|apply Qeq_refl].
  apply (binary64_whole _ (i * 1000000)); [|by rewrite inject_Z_mult].
  change (2 ^ 32) with 4294967296 in Hi.
  change (2 ^ 53) with 9007199254740992. lia.
Qed.

Lemma pacing_spec now i :
  0 <= i < 2 ^ 32 →
  let scheduled := scheduled_offset o i in
  let elapsed := (nanos now - nanos time0) / 1000 in
  pacing o time0 now i
  = if decide (elapsed < scheduled)
    then [SetTimeout ((scheduled - elapsed) / 1000)] else [].
Proof.
  intros Hi scheduled elapsed. unfold pacing, uSleep.
  rewrite (uTimeReqd_scheduled i Hi), uTimeDiff_div.
  fold scheduled elapsed.
  destruct (decide (_ > _)), (decide (_ < _)); (done || lia).
Qed.

Lemma run_sending evs m m' :
  inv o m → run' evs m = Some m' → m_phase m' = Sending →
  ∃ chunks, m_out m' = m_out m ++ concat chunks
            ∧ Forall2 (λ ie chunk, paced_send' ie.1 ie.2 chunk)
                      (numbered (m_i m) (turn_envs evs)) chunks.
Proof.
  revert m. induction evs as [|ev evs IH]; intros m Hinv Hrun Hph; cbn in Hrun.
  - simplify_eq. exists []. by rewrite app_nil_r.
  - destruct (step' m ev) as [m1|] eqn:Hstep; [|done]. cbn in Hrun.
    pose proof (inv_step _ _ _ Hinv Hstep) as Hinv1.
    destruct (IH m1 Hinv1 Hrun Hph) as (chunks & Hout & Hchunks).
    rewrite turn_envs_cons. destruct ev as [env|rawReqID now]; cbn in Hstep.
    + unfold sender_turn in Hstep. destruct (m_phase m) eqn:Hm.
      * destruct (Qltb _ _).
        -- apply sender_body_Some in Hstep as (buf & _ & Hread & Hr & ->).
           fields in Hout. fields in Hchunks.
           eexists ((pacing o time0 (env_now env) (m_i m) ++ [SocketSend _])
                    :: chunks).
           split.
           ++ rewrite Hout. cbn [concat]. by rewrite <- !app_assoc.
           ++ cbn [numbered]. constructor; [|done].
              exists (Message buf (pick domains (env_rand_domain env))
                                  (pick ips (env_rand_ip env))).
              split; [exact Hread|]. cbn [fst snd].
              rewrite pacing_spec; [done|].
              pose proof (inv_i _ _ Hinv). lia.
        -- exfalso. eapply (run_finished evs m1 m'); [done| |done].
           by simplify_eq.
      * exfalso. eapply (run_finished evs m1 m'); [done| |done].
        destruct (decide _); by simplify_eq.
      * exfalso. eapply (run_finished evs m1 m'); [done| |done].
        simplify_eq. by rewrite Hm.
    + destruct (on_message _ _ _); simplify_eq/=. by exists chunks.
Qed.

(** C8, amended.  While the sender is in its loop (and the readings are
    in the range in which the code computes with integers exactly), what
    it has asked of its environment is, for the turns 0, 1, 2, ... in
    order: with the scheduled offset the floor of the double-precision
    quotient [i * 1_000_000 / rate] and the elapsed microseconds read at
    the top of turn [i], a timer of [floor ((scheduled - elapsed) / 1000)]
    milliseconds exactly when [elapsed < scheduled], and then the send of
    request [i] (which carries id [i + 1]); when [elapsed >= scheduled]
    the send comes with no timer before it.  The offset is the exact
    [floor (i * 1_000_000 / rate)] whenever that quotient is a whole
    number of at most 2^53. *)
Theorem sender_pacing evs m :
  run' evs machine_init = Some m → m_phase m = Sending →
  hrtime_ok time0 →
  Forall (λ ie, turn_in_range o time0 ie.1 ie.2) (numbered 0 (turn_envs evs)) →
  (∃ chunks, m_out m = concat chunks
             ∧ Forall2 (λ ie chunk, paced_send' ie.1 ie.2 chunk)
                       (numbered 0 (turn_envs evs)) chunks)
  ∧ (∀ i k, 0 <= k <= 2 ^ 53 →
            (inject_Z i * 1000000 / binary64 (MPS o) == inject_Z k)%Q →
            scheduled_offset o i = k ∧ claimed_offset (binary64 (MPS o)) i = k).
Proof.
  intros Hrun Hph _ _. split.
  - destruct (run_sending _ _ _ inv_init Hrun Hph) as (chunks & Hout & Hchunks).
    by exists chunks.
  - intros i k Hk Hq. unfold scheduled_offset, claimed_offset. split.
    + rewrite <- (Qfloor_Z k). apply Qfloor_comp, binary64_whole; [done|].
      by rewrite inject_Z_mult.
    + rewrite <- (Qfloor_Z k). by apply Qfloor_comp.
Qed.

End RunFacts.

(** ** Sample runs *)



(** The product is the double-precision one: the doubles nearest to 0.07
    and to 100 multiply to 7.000000000000001, and the loop makes eight
    passes, where the exact product of the decimals is 7. *)
Example msgs_seven_hundredths :
  let o := {| MPS := 100; test_duration := 7 # 100 |} in
  (7 < msgs o)%Q ∧ loop_count o = 8 ∧ Qceiling (MPS o * test_duration o) = 7
  ∧ ∃ m, sample_run o (turn_at <$> [0; 10000; 20000; 30000; 40000; 50000;
                                    60000; 70000; 80000]) = Some m
         ∧ m_phase m ≠ Sending
         ∧ msgsSent (m_store m) = 8.
Proof.
  split_and!; [by vm_compute..|].
  eexists. split; [by vm_compute|]. split; by vm_compute.
Qed.

(** The rounding on familiar values: the double nearest to 0.1 is
    3602879701896397 / 2^55, and 0.1 + 0.2 in doubles is
    0.3000000000000000444, not the double nearest to 0.3. *)
Example binary64_tenth :
  (binary64 (1 # 10) == 3602879701896397 # 36028797018963968)%Q
  ∧ (binary64 (binary64 (1 # 10) + binary64 (2 # 10))
     == 1351079888211149 # 4503599627370496)%Q
  ∧ (binary64 (3 # 10) == 5404319552844595 # 18014398509481984)%Q.
Proof. split_and!; by vm_compute. Qed.

(** C3, as stated, fails: a reply for id 7 before anything is sent leaves
    [pending] at -1. *)
Lemma pending_negative_after_unknown_reply :
  ∃ m, sample_run scenario_A [reply_to 7 1000] = Some m
       ∧ pendingCount (m_store m) = -1
       ∧ ¬ 0 <= pendingCount (m_store m).
Proof.
  eexists. split; [by vm_compute|]. split; by vm_compute.
Qed.

Lemma counters_invariant_witness :
  replies_matched scenario_A sample_domains sample_ips sample_time0
    (take 5 sample_schedule) machine_init = true
  ∧ ∃ m1, sample_run scenario_A (take 5 sample_schedule) = Some m1
          ∧ pendingCount (m_store m1)
            = msgsSent (m_store m1) - msgsReceived (m_store m1)
          ∧ (replies_matched scenario_A sample_domains sample_ips sample_time0
               (take 5 sample_schedule) machine_init = true →
             0 <= pendingCount (m_store m1)).
Proof.
  split; [by vm_compute|].
  apply (counters_invariant scenario_A sample_domains sample_ips sample_time0
           (take 5 sample_schedule) (drop 5 sample_schedule)
           (sample_final scenario_A sample_schedule)).
  by vm_compute.
Defined.

(** C8, as stated, fails: the code floors the quotient it has computed in
    double precision, which is not always the floor of the quotient.
    - Rate 0.56: the offset of request 7 is 12_499_999 us in the code,
      where [floor (7_000_000 / 0.56)] is 12_500_000.  A sender that
      finds 12_499_999 us elapsed sends request 7 at once, with no timer,
      though the elapsed time is below the offset of the claim.
    - Rate the double nearest to 0.1: the offset of request 1 is
      10_000_000 us in the code, where the floor of the quotient by that
      double is 9_999_999.  A sender that finds 9_999_999 us elapsed sets
      a timer before request 1, though the elapsed time is not below the
      offset of the claim. *)
Lemma pacing_not_exact_floor :
  (uTimeReqd scenario_slow 7 = 12499999
   ∧ claimed_offset (MPS scenario_slow) 7 = 12500000
   ∧ uTimeDiff sample_time0 (HrTime 112 499999000) = 12499999
   ∧ ∃ m, sample_run scenario_slow slow_schedule = Some m
          ∧ m_phase m = Sending
          ∧ m_out m = sample_request <$> [1; 2; 3; 4; 5; 6; 7; 8])
  ∧ (uTimeReqd scenario_tenth 1 = 10000000
     ∧ Number (MPS scenario_tenth) = binary64 (Number (MPS scenario_tenth))
     ∧ claimed_offset (Number (MPS scenario_tenth)) 1 = 9999999
     ∧ uTimeDiff sample_time0 (HrTime 109 999999000) = 9999999
     ∧ ∃ m, sample_run scenario_tenth tenth_schedule = Some m
            ∧ m_phase m = Sending
            ∧ m_out m = [sample_request 1; SetTimeout 0; sample_request 2]).
Proof.
  split.
  - split_and!; [by vm_compute..|].
    eexists. split; [by vm_compute|]. split; by vm_compute.
  - split_and!; [by vm_compute..|].
    eexists. split; [by vm_compute|]. split; by vm_compute.
Qed.

Lemma sender_pacing_witness :
  (∃ chunks,
     m_out (sample_final scenario_A (take 4 sample_schedule)) = concat chunks
     ∧ Forall2 (λ ie chunk,
                  paced_send scenario_A sample_time0 ie.1 ie.2 chunk)
               (numbered 0 (turn_envs (take 4 sample_schedule))) chunks)
  ∧ (∀ i k, 0 <= k <= 2 ^ 53 →
            (inject_Z i * 1000000 / binary64 (MPS scenario_A)
             == inject_Z k)%Q →
            scheduled_offset scenario_A i = k
            ∧ claimed_offset (binary64 (MPS scenario_A)) i = k).
Proof.
  apply (sender_pacing scenario_A sample_domains sample_ips sample_time0
           (take 4 sample_schedule)
           (sample_final scenario_A (take 4 sample_schedule))).
  - by vm_compute.
  - by vm_compute.
  - by vm_compute.
  - repeat (constructor; [by vm_compute|]). constructor.
Defined.

Example sample_pacing_trace :
  m_out (sample_final scenario_A (take 4 sample_schedule))
  = [SocketSend (Message [x00; x00; x00; x01] (Some "example.com"%string)
                         (Some "198.51.100.7"%string));
     uSleep 50000;
     SocketSend (Message [x00; x00; x00; x02] (Some "example.com"%string)
                         (Some "198.51.100.7"%string));
     SocketSend (Message [x00; x00; x00; x03] (Some "example.com"%string)
                         (Some "198.51.100.7"%string))].
Proof. by vm_compute. Qed.

Lemma request_ids_witness :
  sent_ids (m_out (sample_final scenario_A sample_schedule)) = [1; 2; 3; 4; 5]
  ∧ NoDup (sent_ids (m_out (sample_final scenario_A sample_schedule))).
Proof.
  destruct (request_ids scenario_A sample_domains sample_ips sample_time0
              sample_schedule (sample_final scenario_A sample_schedule))
    as (_ & Hnodup & _ & Hscenario); [by vm_compute|].
  split; [|exact Hnodup].
  apply Hscenario; by vm_compute.
Defined.

(** * Further properties of the code *)

(** ** Reading the list files *)

Example getListFromTextFile_mixed :
  getListFromTextFile
    (String "a" (String CR (String LF (String LF (String "b" (String CR
      (String CR (String LF (String "c" (String LF EmptyString))))))))))
  = [String "a" EmptyString; String "b" (String CR EmptyString);
     String "c" EmptyString].
Proof. reflexivity. Qed.

Example getListFromTextFile_empty : getListFromTextFile EmptyString = [].
Proof. reflexivity. Qed.

Lemma split_newlines_cons c rest :
  split_newlines (String c rest)
  = if Ascii.eqb c LF then EmptyString :: split_newlines rest
    else match rest with
         | String c' rest' =>
             if Ascii.eqb c CR && Ascii.eqb c' LF
             then EmptyString :: split_newlines rest'
             else prepend c (split_newlines rest)
         | EmptyString => prepend c (split_newlines rest)
         end.
Proof. reflexivity. Qed.

(** The cases of [split_newlines], as an induction principle. *)
Lemma split_newlines_ind (P : string → list string → Prop) :
  P EmptyString [EmptyString] →
  (∀ rest, P rest (split_newlines rest) →
           P (String LF rest) (EmptyString :: split_newlines rest)) →
  (∀ rest, P rest (split_newlines rest) →
           P (String CR (String LF rest)) (EmptyString :: split_newlines rest)) →
  (∀ c rest, c ≠ LF → (c = CR → ∀ rest', rest ≠ String LF rest') →
             P rest (split_newlines rest) →
             P (String c rest) (prepend c (split_newlines rest))) →
  ∀ data, P data (split_newlines data).
Proof.
  intros Hnil HLF HCRLF Hchar data.
  cut (P data (split_newlines data)
       ∧ ∀ c, P (String c data) (split_newlines (String c data))); [tauto|].
  induction data as [|c' rest [IH IH']].
  - split; [done|]. intros c. cbn.
    destruct (Ascii.eqb_spec c LF) as [->|Hc]; [by apply HLF|].
    by apply (Hchar c EmptyString).
  - split; [apply IH'|]. intros c. rewrite split_newlines_cons.
    destruct (Ascii.eqb_spec c LF) as [->|Hc]; [apply HLF, IH'|].
    destruct (Ascii.eqb_spec c CR) as [->|Hcr];
      destruct (Ascii.eqb_spec c' LF) as [->|Hc']; cbn [andb].
    + by apply HCRLF.
    + apply Hchar; [done| |apply IH']. intros _ rest'. congruence.
    + apply Hchar; [done|done|apply IH'].
    + apply Hchar; [done|done|apply IH'].
Qed.

Lemma split_newlines_no_LF data :
  Forall (λ item, ¬ occurs LF item) (split_newlines data).
Proof.
  revert data.
  apply (split_newlines_ind (λ _ items, Forall (λ item, ¬ occurs LF item) items)).
  - constructor; [cbn; tauto | constructor].
  - intros rest IH. constructor; [cbn; tauto | done].
  - intros rest IH. constructor; [cbn; tauto | done].
  - intros c rest Hc _ IH.
    destruct IH as [|item items Hitem Hitems]; cbn;
      (constructor; [cbn; tauto | done]).
Qed.

(** X1.  The list read from a file has no empty item, and no item holds
    a line feed. *)
Theorem getListFromTextFile_items data :
  Forall (λ item, item ≠ EmptyString ∧ ¬ occurs LF item)
         (getListFromTextFile data).
Proof.
  unfold getListFromTextFile. apply Forall_forall.
  intros item [Hne Hin]%list_elem_of_filter. split; [done|].
  pose proof (split_newlines_no_LF data) as Hall.
  rewrite Forall_forall in Hall. by apply Hall.
Qed.

Lemma eqb_LF_false c : c ≠ LF → Ascii.eqb c LF = false.
Proof. by intros ?%Ascii.eqb_neq. Qed.

Lemma split_newlines_plain item :
  ¬ occurs LF item → split_newlines item = [item].
Proof.
  induction item as [|c item IH]; [done|]. cbn [occurs]. intros Hno.
  rewrite split_newlines_cons, eqb_LF_false by tauto.
  destruct item as [|c' item']; [done|].
  rewrite (eqb_LF_false c'), andb_false_r by (cbn in Hno; tauto).
  rewrite IH by tauto. done.
Qed.

Lemma split_newlines_app_LF item rest :
  ¬ occurs LF item → ¬ ends_with CR item →
  split_newlines (item ++ String LF rest)%string = item :: split_newlines rest.
Proof.
  induction item as [|c item IH]; [done|]. cbn [occurs]. intros Hno Hend.
  change (String c item ++ String LF rest)%string
    with (String c (item ++ String LF rest)%string).
  rewrite split_newlines_cons, eqb_LF_false by tauto.
  destruct item as [|c' item'].
  - cbn in Hend. change (EmptyString ++ String LF rest)%string
      with (String LF rest).
    cbv beta iota.
    apply Ascii.eqb_neq in Hend. rewrite Hend. cbn [andb].
    rewrite split_newlines_cons. done.
  - change (String c' item' ++ String LF rest)%string
      with (String c' (item' ++ String LF rest)%string) in *.
    cbv beta iota.
    rewrite (eqb_LF_false c'), andb_false_r by (cbn in Hno; tauto).
    rewrite IH by tauto. done.
Qed.

Lemma split_newlines_app_CRLF item rest :
  ¬ occurs LF item →
  split_newlines (item ++ String CR (String LF rest))%string
  = item :: split_newlines rest.
Proof.
  induction item as [|c item IH]; [done|]. cbn [occurs]. intros Hno.
  change (String c item ++ String CR (String LF rest))%string
    with (String c (item ++ String CR (String LF rest))%string).
  rewrite split_newlines_cons, eqb_LF_false by tauto.
  destruct item as [|c' item'].
  - change (EmptyString ++ String CR (String LF rest))%string
      with (String CR (String LF rest)) in *.
    cbv beta iota. change (Ascii.eqb CR LF) with false.
    rewrite andb_false_r. rewrite IH by (cbn; tauto). done.
  - change (String c' item' ++ String CR (String LF rest))%string
      with (String c' (item' ++ String CR (String LF rest))%string) in *.
    cbv beta iota.
    rewrite (eqb_LF_false c'), andb_false_r by (cbn in Hno; tauto).
    rewrite IH by tauto. done.
Qed.

(** The separators a list file uses between lines. *)
Lemma split_newlines_app_sep sep item rest :
  sep = String LF EmptyString ∨ sep = String CR (String LF EmptyString) →
  ¬ occurs LF item → ¬ ends_with CR item →
  split_newlines (item ++ sep ++ rest)%string = item :: split_newlines rest.
Proof.
  intros [->| ->] Hno Hend.
  - by apply split_newlines_app_LF.
  - by apply split_newlines_app_CRLF.
Qed.

Lemma append_cons c (s1 s2 : string) :
  (String c s1 ++ s2)%string = String c (s1 ++ s2)%string.
Proof. reflexivity. Qed.

Lemma append_assoc (s1 s2 s3 : string) :
  ((s1 ++ s2) ++ s3)%string = (s1 ++ (s2 ++ s3))%string.
Proof.
  induction s1 as [|c s1 IH]; [done|]. by rewrite !append_cons, IH.
Qed.

Lemma append_empty_r (s : string) : (s ++ EmptyString)%string = s.
Proof. induction s as [|c s IH]; [done|]. by rewrite append_cons, IH. Qed.

Lemma getListFromTextFile_join sep items tail :
  sep = String LF EmptyString ∨ sep = String CR (String LF EmptyString) →
  tail = EmptyString ∨ tail = sep →
  Forall plain_line items →
  getListFromTextFile (join sep items ++ tail)%string = items.
Proof.
  intros Hsep Htail Hitems. unfold getListFromTextFile.
  assert (Htl : filter (λ item, item ≠ EmptyString) (split_newlines tail) = []).
  { destruct Htail as [->| ->]; [done|]. by destruct Hsep as [->| ->]. }
  induction Hitems as [|item items (Hne & Hno & Hend) Hitems IH]; [done|].
  destruct items as [|item' items'].
  - cbn [join String.concat].
    destruct Htail as [->| ->].
    + rewrite append_empty_r, split_newlines_plain by done.
      rewrite filter_cons_True by done. done.
    + rewrite <- (append_empty_r sep) at 1.
      rewrite split_newlines_app_sep by done.
      rewrite filter_cons_True by done. done.
  - change (join sep (item :: item' :: items'))
      with (item ++ sep ++ join sep (item' :: items'))%string.
    rewrite !append_assoc, split_newlines_app_sep by done.
    rewrite filter_cons_True by done. by rewrite IH.
Qed.

(** X2.  Writing plain lines to a file and reading it back gives the lines
    again, whether the lines are separated by LF or by CR LF, and with or
    without a separator after the last line. *)
Theorem getListFromTextFile_round_trip items :
  Forall plain_line items →
  let lf := String LF EmptyString in
  let crlf := String CR (String LF EmptyString) in
  getListFromTextFile (join lf items) = items
  ∧ getListFromTextFile (join lf items ++ lf)%string = items
  ∧ getListFromTextFile (join crlf items) = items
  ∧ getListFromTextFile (join crlf items ++ crlf)%string = items.
Proof.
  intros Hitems lf crlf. split_and!.
  - rewrite <- (append_empty_r (join lf items)).
    apply getListFromTextFile_join; auto.
  - apply getListFromTextFile_join; auto.
  - rewrite <- (append_empty_r (join crlf items)).
    apply getListFromTextFile_join; auto.
  - apply getListFromTextFile_join; auto.
Qed.

Lemma getListFromTextFile_round_trip_witness :
  let items := ["example.com"; "a.b"; "x"]%string in
  let lf := String LF EmptyString in
  let crlf := String CR (String LF EmptyString) in
  getListFromTextFile (join lf items) = items
  ∧ getListFromTextFile (join lf items ++ lf)%string = items
  ∧ getListFromTextFile (join crlf items) = items
  ∧ getListFromTextFile (join crlf items ++ crlf)%string = items.
Proof.
  apply (getListFromTextFile_round_trip ["example.com"; "a.b"; "x"]%string).
  repeat constructor; try discriminate; vm_compute; intuition discriminate.
Defined.

(** A line that ends in a carriage return loses it when LF separates the
    lines. *)
Example getListFromTextFile_trailing_CR :
  getListFromTextFile
    (join (String LF EmptyString) [String "a" (String CR EmptyString); "b"%string])
  = ["a"%string; "b"%string].
Proof. reflexivity. Qed.

(** ** Time differences *)

(** X3.  For two readings as [process.hrtime()] gives them (seconds
    below 2^33, nanoseconds below 10^9), [uTimeDiff] is the difference of
    the readings in nanoseconds, divided by 1000 and rounded down; it lies
    strictly between -2^53 and 2^53, where the code's double arithmetic on
    whole numbers is exact; it is zero between a reading and itself, and
    it is not negative when the second reading is not before the first. *)
Theorem uTimeDiff_nanos time0 time1 :
  hrtime_ok time0 → hrtime_ok time1 →
  uTimeDiff time0 time1 = (nanos time1 - nanos time0) / 1000
  ∧ - 2 ^ 53 < uTimeDiff time0 time1 < 2 ^ 53
  ∧ uTimeDiff time0 time0 = 0
  ∧ (nanos time0 <= nanos time1 → 0 <= uTimeDiff time0 time1).
Proof.
  intros H0 H1.
  split_and!; [apply uTimeDiff_div|..|apply uTimeDiff_nonneg].
  - pose proof (uTimeDiff_range _ _ H0 H1) as Hr.
    change (2 ^ 33) with 8589934592 in Hr.
    change (2 ^ 53) with 9007199254740992. lia.
  - pose proof (uTimeDiff_range _ _ H0 H1) as Hr.
    change (2 ^ 33) with 8589934592 in Hr.
    change (2 ^ 53) with 9007199254740992. lia.
  - rewrite uTimeDiff_div, Z.sub_diag. done.
Qed.

(** X4.  For three readings as [process.hrtime()] gives them, differences
    over adjacent intervals add up to the difference over the whole
    interval, short of at most one microsecond lost to the rounding (all
    of them, and their sum, strictly between -2^53 and 2^53). *)
Theorem uTimeDiff_split time0 time1 time2 :
  hrtime_ok time0 → hrtime_ok time1 → hrtime_ok time2 →
  uTimeDiff time0 time2 - 1
  <= uTimeDiff time0 time1 + uTimeDiff time1 time2
  <= uTimeDiff time0 time2
  ∧ - 2 ^ 53 < uTimeDiff time0 time1 + uTimeDiff time1 time2 < 2 ^ 53.
Proof.
  intros H0 H1 H2.
  pose proof (uTimeDiff_range _ _ H0 H2) as Hr.
  cut (uTimeDiff time0 time2 - 1
       <= uTimeDiff time0 time1 + uTimeDiff time1 time2
       <= uTimeDiff time0 time2).
  { intros Hs. split; [exact Hs|].
    change (2 ^ 33) with 8589934592 in Hr.
    change (2 ^ 53) with 9007199254740992. lia. }
  rewrite !uTimeDiff_div.
  generalize (nanos time0), (nanos time1), (nanos time2). intros a b c.
  Z.div_mod_to_equations. lia.
Qed.

Example uTimeDiff_split_loses_one :
  uTimeDiff (HrTime 0 0) (HrTime 0 500) + uTimeDiff (HrTime 0 500) (HrTime 0 1000)
  = uTimeDiff (HrTime 0 0) (HrTime 0 1000) - 1.
Proof. reflexivity. Qed.

(** ** The id frame *)

Lemma byte_of_Z_mod z b : z mod 256 = Z_of_byte b → byte_of_Z z = b.
Proof.
  intros Hz. unfold byte_of_Z, Z_of_byte in *.
  change 255 with (Z.ones 8). rewrite Z.land_ones by lia.
  change (2 ^ 8) with 256. rewrite Hz, N2Z.id, Byte.of_to_N. done.
Qed.

Lemma Z_of_byte_range b : 0 <= Z_of_byte b < 256.
Proof.
  unfold Z_of_byte. pose proof (Byte.to_N_bounded b). lia.
Qed.

(** X5.  Decoding reads the first four bytes only: the id it yields is in
    [0, 2^32), and encoding that id gives those four bytes back. *)
Theorem readUInt32BE_encUInt32_bytes buf id :
  readUInt32BE buf = Some id →
  0 <= id < 2 ^ 32 ∧ encUInt32 id = Some (take 4 buf).
Proof.
  destruct buf as [|b0 [|b1 [|b2 [|b3 rest]]]]; try done.
  cbn [readUInt32BE take]. intros [= <-].
  pose proof (Z_of_byte_range b0). pose proof (Z_of_byte_range b1).
  pose proof (Z_of_byte_range b2). pose proof (Z_of_byte_range b3).
  change (2 ^ 24) with 16777216. change (2 ^ 16) with 65536.
  change (2 ^ 8) with 256. change (2 ^ 32) with 4294967296.
  set (id := Z_of_byte b0 * 16777216 + Z_of_byte b1 * 65536
             + Z_of_byte b2 * 256 + Z_of_byte b3).
  assert (Hid : 0 <= id < 4294967296) by (subst id; lia).
  split; [done|]. unfold encUInt32, writeUInt32BE.
  change (2 ^ 32) with 4294967296.
  destruct (decide _) as [_|]; [|done].
  rewrite !Z.shiftr_shiftr, !Z.shiftr_div_pow2 by lia.
  change (2 ^ (8 + (8 + 8))) with 16777216. change (2 ^ (8 + 8)) with 65536.
  change (2 ^ 8) with 256.
  do 5 f_equal; apply byte_of_Z_mod; subst id;
    Z.div_mod_to_equations; lia.
Qed.

Lemma readUInt32BE_encUInt32_bytes_witness :
  0 <= 16909060 < 2 ^ 32
  ∧ encUInt32 16909060 = Some (take 4 [x01; x02; x03; x04; xff]).
Proof.
  apply (readUInt32BE_encUInt32_bytes [x01; x02; x03; x04; xff] 16909060).
  reflexivity.
Defined.

(** X6.  Different ids have different encodings: two requests never
    share an id frame. *)
Theorem encUInt32_inj id1 id2 buf1 buf2 :
  encUInt32 id1 = Some buf1 → encUInt32 id2 = Some buf2 →
  id1 ≠ id2 → buf1 ≠ buf2.
Proof.
  intros H1 H2 Hne ->. apply Hne.
  assert (Hr : ∀ id, encUInt32 id = Some buf2 → readUInt32BE buf2 = Some id).
  { intros id Hid.
    assert (0 <= id < 2 ^ 32) as Hrange
      by (unfold encUInt32, writeUInt32BE in Hid; by destruct (decide _)).
    pose proof (readUInt32BE_encUInt32 id Hrange) as Hrt.
    by rewrite Hid in Hrt. }
  apply Hr in H1, H2. congruence.
Qed.

Lemma encUInt32_inj_witness : [x00; x00; x01; x02] ≠ [x00; x01; x00; x02].
Proof.
  apply (encUInt32_inj 258 65538); [reflexivity | reflexivity | lia].
Defined.

(** ** Receiver *)

(** X7.  The callback raises exactly when the id frame has fewer than four
    bytes; bytes after the fourth are ignored. *)
Theorem on_message_frame_length rawReqID now st :
  (on_message rawReqID now st = None ↔ (length rawReqID < 4)%nat)
  ∧ on_message rawReqID now st = on_message (take 4 rawReqID) now st.
Proof.
  unfold on_message.
  destruct rawReqID as [|b0 [|b1 [|b2 [|b3 rest]]]]; cbn;
    (split; [split; [done || lia | done || lia] | done]).
Qed.

(** ** The latencies in the store *)

Lemma collect_latencies_length starts ends :
  length (collect_latencies starts ends)
  = size (dom starts ∩ dom ends : gset Z).
Proof.
  induction starts as [|k t0 starts Hk IH] using map_ind.
  - rewrite dom_empty_L, (left_absorb_L _ (∩)), size_empty. done.
  - rewrite (collect_latencies_insert _ _ _ _ Hk), length_app, IH.
    rewrite dom_insert_L. apply not_elem_of_dom in Hk.
    destruct (ends !! k) as [t1|] eqn:Hend.
    + assert (k ∈ dom ends) by (apply elem_of_dom; eauto).
      replace (({[k]} ∪ dom starts) ∩ dom ends)
        with ({[k]} ∪ (dom starts ∩ dom ends) : gset Z) by set_solver.
      rewrite (size_union (C:=gset Z) {[k]} (dom starts ∩ dom ends))
        by set_solver.
      by rewrite (size_singleton (C:=gset Z)).
    + apply not_elem_of_dom in Hend.
      replace (({[k]} ∪ dom starts) ∩ dom ends)
        with (dom starts ∩ dom ends : gset Z) by set_solver.
      done.
Qed.

(** X8.  The number of latencies collected is the number of ids that have
    both a start time and an end time: requests without a reply, and
    replies without a request, add nothing. *)
Theorem latencies_length st :
  length (latencies st)
  = size (dom (reqStartTime st) ∩ dom (reqEndTime st) : gset Z).
Proof. rewrite latencies_collect. apply collect_latencies_length. Qed.

(** X9.  The first reply to a request that was sent adds exactly the
    latency of that request, the microseconds from its start time to the
    arrival of the reply, and leaves the other latencies as they were. *)
Theorem on_message_adds_latency rawReqID now st reqID t0 :
  readUInt32BE rawReqID = Some reqID →
  reqStartTime st !! reqID = Some t0 →
  reqEndTime st !! reqID = None →
  ∃ st', on_message rawReqID now st = Some st'
         ∧ latencies st' ≡ₚ uTimeDiff t0 now :: latencies st.
Proof.
  intros Hid Hstart Hend. unfold on_message. rewrite Hid. cbn.
  eexists. split; [reflexivity|]. rewrite !latencies_collect. cbn.
  rewrite <- (insert_delete_id (reqStartTime st) reqID t0 Hstart).
  assert (Hdel : delete reqID (reqStartTime st) !! reqID = None)
    by apply lookup_delete_eq.
  rewrite !(collect_latencies_insert _ _ _ _ Hdel).
  rewrite lookup_insert_eq, Hend, collect_latencies_end_other by done.
  done.
Qed.

Lemma on_message_adds_latency_witness :
  ∃ st', on_message [x00; x00; x00; x02] (HrTime 3 5200000) store_one = Some st'
         ∧ latencies st'
           ≡ₚ uTimeDiff (HrTime 3 200000) (HrTime 3 5200000) :: latencies store_one.
Proof.
  apply (on_message_adds_latency _ _ store_one 2); reflexivity.
Defined.

(** X10.  A further reply to a request that already has an end time moves
    the end time to the later arrival: the request keeps one latency, now
    measured to the latest reply, while [received] counts both replies. *)
Theorem on_message_duplicate rawReqID now st reqID t0 t1 :
  readUInt32BE rawReqID = Some reqID →
  reqStartTime st !! reqID = Some t0 →
  reqEndTime st !! reqID = Some t1 →
  ∃ st' rest,
    on_message rawReqID now st = Some st'
    ∧ latencies st ≡ₚ uTimeDiff t0 t1 :: rest
    ∧ latencies st' ≡ₚ uTimeDiff t0 now :: rest
    ∧ msgsReceived st' = msgsReceived st + 1.
Proof.
  intros Hid Hstart Hend. unfold on_message. rewrite Hid. cbn.
  eexists. exists (collect_latencies (delete reqID (reqStartTime st)) (reqEndTime st)).
  assert (Hdel : delete reqID (reqStartTime st) !! reqID = None)
    by apply lookup_delete_eq.
  split_and!; [reflexivity|..|done]; rewrite latencies_collect; cbn.
  - rewrite <- (insert_delete_id (reqStartTime st) reqID t0 Hstart) at 1.
    by rewrite (collect_latencies_insert _ _ _ _ Hdel), Hend.
  - rewrite <- (insert_delete_id (reqStartTime st) reqID t0 Hstart) at 1.
    rewrite (collect_latencies_insert _ _ _ _ Hdel).
    by rewrite lookup_insert_eq, collect_latencies_end_other.
Qed.

Lemma on_message_duplicate_witness :
  ∃ st' rest,
    on_message [x00; x00; x00; x01] (HrTime 4 0) store_one = Some st'
    ∧ latencies store_one ≡ₚ uTimeDiff (HrTime 3 100000) (HrTime 3 2600000) :: rest
    ∧ latencies st' ≡ₚ uTimeDiff (HrTime 3 100000) (HrTime 4 0) :: rest
    ∧ msgsReceived st' = msgsReceived store_one + 1.
Proof.
  apply (on_message_duplicate _ _ store_one 1); reflexivity.
Defined.

(** ** The report *)

Lemma latPercIndex_one lats : latPercIndex lats 1 = Z.of_nat (length lats) - 1.
Proof.
  unfold latPercIndex. f_equal. apply Math_round_integer, Qmult_1_l.
Qed.

Lemma array_sort_numeric_length arr :
  length (array_sort numeric arr) = length arr.
Proof. apply Permutation_length, array_sort_numeric_perm. Qed.

(** X11.  On a sample that is not empty, the value reported as
    "Max latency" is the largest collected latency, in milliseconds. *)
Theorem statsReport_max_is_maximum st :
  latencies st ≠ [] →
  ∃ top, top ∈ latencies st
         ∧ Forall (λ lat, lat <= top) (latencies st)
         ∧ rep_max (statsReport st) = JsNum (inject_Z top / 1000).
Proof.
  intros Hne. pose proof (array_sort_nonempty _ Hne) as Hne'.
  pose proof (array_sort_numeric_sorted (latencies st)) as Hs.
  pose proof (array_sort_numeric_perm (latencies st)) as Hperm.
  unfold statsReport. cbn [rep_max].
  set (lats := array_sort numeric (latencies st)) in *.
  destruct (latPercMs_nonempty lats 1 Hne') as (top & [H0 Hn] & Htop & ->);
    [solve_fraction|].
  exists top. split_and!; [| |done].
  - rewrite <- Hperm. by eapply list_elem_of_lookup_2.
  - rewrite <- Hperm. apply Forall_forall. intros lat Hlat.
    apply list_elem_of_lookup_1 in Hlat as [j Hj].
    refine (StronglySorted_lookup_le lats _ _ _ _ Hs _ Hj Htop).
    apply lookup_lt_Some in Hj. rewrite latPercIndex_one. lia.
Qed.

Lemma statsReport_max_is_maximum_witness :
  ∃ top, top ∈ latencies store_three
         ∧ Forall (λ lat, lat <= top) (latencies store_three)
         ∧ rep_max (statsReport store_three) = JsNum (inject_Z top / 1000).
Proof.
  apply (statsReport_max_is_maximum store_three).
  vm_compute. discriminate.
Defined.

Lemma Math_round_near (p : Q) (n : Z) :
  (p <= 1)%Q → (inject_Z n * (1 - p) <= 1 # 2)%Q → 0 <= n →
  Math_round (p * inject_Z n) = n.
Proof.
  intros Hp Hnear Hn. unfold Math_round.
  cut (n <= Qfloor (p * inject_Z n + (1 # 2)) <= n); [lia|].
  assert (HnQ : (0 <= inject_Z n)%Q)
    by (change 0%Q with (inject_Z 0); rewrite <- Zle_Qle; lia).
  apply Qfloor_between.
  - apply Qle_minus_iff. apply Qle_minus_iff in Hnear.
    eapply Qle_trans; [exact Hnear|]. apply Qle_lteq. right. ring.
  - rewrite inject_Z_plus.
    apply Qle_lt_trans with (inject_Z n + (1 # 2))%Q; [|by apply Qplus_lt_r].
    apply Qplus_le_compat; [|apply Qle_refl].
    rewrite <- (Qmult_1_l (inject_Z n)) at 2.
    by apply Qmult_le_compat_r.
Qed.

Lemma latPercMs_small lats (p : Q) (bound : Z) :
  (p <= 1)%Q → (inject_Z bound * (1 - p) <= 1 # 2)%Q → (0 <= 1 - p)%Q →
  Z.of_nat (length lats) <= bound →
  latPercMs lats p = latPercMs lats 1.
Proof.
  intros Hp Hb Hp' Hlen. unfold latPercMs.
  replace (latPercIndex lats p) with (latPercIndex lats 1); [done|].
  rewrite latPercIndex_one. unfold latPercIndex. f_equal. symmetry.
  apply (Math_round_near p); [done| |lia].
  eapply Qle_trans; [|exact Hb]. apply Qmult_le_compat_r; [|done].
  rewrite <- Zle_Qle. done.
Qed.

(** X12.  On small samples the percentiles coincide with the maximum: the
    99.9 line equals the "Max latency" line up to 500 latencies, the 99.0
    line up to 50, and the 90.0 line up to 5. *)
Theorem statsReport_small_sample st :
  let n := Z.of_nat (length (latencies st)) in
  (n <= 500 → rep_p999 (statsReport st) = rep_max (statsReport st))
  ∧ (n <= 50 → rep_p99 (statsReport st) = rep_max (statsReport st))
  ∧ (n <= 5 → rep_p90 (statsReport st) = rep_max (statsReport st)).
Proof.
  intros n. subst n. rewrite <- (array_sort_numeric_length (latencies st)).
  unfold statsReport. cbn [rep_p999 rep_p99 rep_p90 rep_max].
  split_and!; intros Hn; eapply latPercMs_small; try exact Hn; done.
Qed.

Lemma statsReport_small_sample_witness :
  rep_p999 (statsReport store_three) = rep_max (statsReport store_three)
  ∧ rep_p99 (statsReport store_three) = rep_max (statsReport store_three)
  ∧ rep_p90 (statsReport store_three) = rep_max (statsReport store_three).
Proof.
  destruct (statsReport_small_sample store_three) as (H999 & H99 & H90).
  split_and!; [apply H999 | apply H99 | apply H90]; by vm_compute.
Defined.

(** ** Choosing the payload *)

(** X13.  With a draw in [0, 1) the index computed for a list that is not
    empty is inside the list, so the choice is one of its elements; on an
    empty list the choice is [undefined]. *)
Theorem pick_in_list {A} (arr : list A) (rand : Q) :
  (0 <= rand)%Q → (rand < 1)%Q →
  match arr with
  | [] => pick arr rand = None
  | _ :: _ => ∃ x, pick arr rand = Some x ∧ x ∈ arr
  end.
Proof.
  intros H0 H1. unfold pick, Math_floor.
  destruct arr as [|a arr]; [unfold array_get; by destruct (decide _)|].
  set (n := Z.of_nat (length (a :: arr))).
  assert (Hn : 1 <= n) by (subst n; cbn [length]; lia).
  assert (HnQ : (0 < inject_Z n)%Q)
    by (change 0%Q with (inject_Z 0); rewrite <- Zlt_Qlt; lia).
  assert (Hidx : 0 <= Qfloor (rand * inject_Z n) <= n - 1).
  { apply Qfloor_between.
    - apply Qmult_le_0_compat; [done | by apply Qlt_le_weak].
    - replace (n - 1 + 1) with n by lia.
      rewrite <- (Qmult_1_l (inject_Z n)) at 2.
      by apply Qmult_lt_compat_r. }
  destruct (array_get_in_bounds (a :: arr) (Qfloor (rand * inject_Z n)))
    as (x & Hx & Hget); [unfold in_bounds; fold n; lia|].
  exists x. split; [done|]. by eapply list_elem_of_lookup_2.
Qed.

Lemma pick_in_list_witness :
  ∃ x, pick sample_domains (1 # 3) = Some x ∧ x ∈ sample_domains.
Proof.
  apply (pick_in_list sample_domains (1 # 3)); done.
Defined.

(** ** Whole runs *)

Section RunMore.
Context (o : options) (domains ips : list string) (time0 : hrtime).

#[local] Abbreviation run_ := (run o domains ips time0).
#[local] Abbreviation step_ := (step o domains ips time0).

(** The six ways a step can go. *)
Lemma step_cases m ev m' :
  step_ m ev = Some m' →
  (∃ env buf,
      ev = Turn env ∧ m_phase m = Sending
      ∧ Qltb (inject_Z (m_i m)) (msgs o) = true
      ∧ readUInt32BE buf = Some (m_i m + 1)
      ∧ m' = {| m_store := record_send (m_i m + 1) (env_sent_at env) (m_store m);
                m_i := m_i m + 1;
                m_phase := Sending;
                m_out := m_out m ++ pacing o time0 (env_now env) (m_i m)
                         ++ [SocketSend (Message buf (pick domains (env_rand_domain env))
                                                 (pick ips (env_rand_ip env)))] |})
  ∨ (∃ env,
        ev = Turn env ∧ m_phase m = Sending
        ∧ Qltb (inject_Z (m_i m)) (msgs o) = false
        ∧ m' = {| m_store := m_store m; m_i := m_i m;
                  m_phase := Draining (env_now env);
                  m_out := m_out m ++ [SocketClose] |})
  ∨ (∃ env lastSendTime,
        ev = Turn env ∧ m_phase m = Draining lastSendTime
        ∧ m' = {| m_store := m_store m; m_i := m_i m;
                  m_phase := Draining lastSendTime;
                  m_out := m_out m ++ [uSleep 100000] |})
  ∨ (∃ env lastSendTime,
        ev = Turn env ∧ m_phase m = Draining lastSendTime
        ∧ m' = {| m_store := m_store m; m_i := m_i m;
                  m_phase := Reported (statsReport (m_store m));
                  m_out := m_out m |})
  ∨ (∃ env r, ev = Turn env ∧ m_phase m = Reported r ∧ m' = m)
  ∨ (∃ rawReqID now st,
        ev = Reply rawReqID now
        ∧ on_message rawReqID now (m_store m) = Some st
        ∧ m' = {| m_store := st; m_i := m_i m;
                  m_phase := m_phase m; m_out := m_out m |}).
Proof.
  intros Hstep. destruct ev as [env|rawReqID now]; cbn in Hstep.
  - unfold sender_turn in Hstep. destruct (m_phase m) as [|last|r] eqn:Hph.
    + destruct (Qltb _ _) eqn:Hlt.
      * apply sender_body_Some in Hstep as (buf & _ & Hread & _ & ->).
        left. by exists env, buf.
      * right; left. exists env. by simplify_eq.
    + destruct (decide _); simplify_eq.
      * do 2 right; left. by exists env, last.
      * do 3 right; left. by exists env, last.
    + do 4 right; left. exists env, r. by simplify_eq.
  - do 5 right. destruct (on_message _ _ _) as [st|] eqn:Hst; [|done].
    exists rawReqID, now, st. by simplify_eq/=.
Qed.

(** A property kept by every step holds after every run. *)
Lemma run_invariant (P : machine → Prop) :
  (∀ m ev m', inv o m → P m → step_ m ev = Some m' → P m') →
  ∀ evs m m', inv o m → P m → run_ evs m = Some m' → P m'.
Proof.
  intros Hstep evs. induction evs as [|ev evs IH]; intros m m' Hinv HP Hrun;
    cbn in Hrun.
  - by simplify_eq.
  - destruct (step_ m ev) as [m1|] eqn:Hm1; [|done]. cbn in Hrun.
    eapply (IH m1); [by eapply inv_step | by eapply Hstep | done].
Qed.

Lemma timer_ok_pacing now i : Forall timer_ok (pacing o time0 now i).
Proof.
  unfold pacing. destruct (decide _) as [Hgt|]; [|constructor].
  constructor; [|constructor]. unfold timer_ok, uSleep.
  apply Z.div_pos; lia.
Qed.

(** X14.  The sender never sets a timer with a negative delay. *)
Theorem sender_timers_nonneg evs m :
  run_ evs machine_init = Some m → Forall timer_ok (m_out m).
Proof.
  apply (run_invariant (λ m, Forall timer_ok (m_out m)));
    [|apply inv_init|constructor].
  clear. intros m ev m' _ HP Hstep.
  destruct (step_cases _ _ _ Hstep)
    as [(env & buf & _ & _ & _ & _ & ->)
       |[(env & _ & _ & _ & ->)
        |[(env & last & _ & _ & ->)
         |[(env & last & _ & _ & ->)
          |[(env & r & _ & _ & ->)
           |(raw & now & st & _ & _ & ->)]]]]]; fields; try done.
  - rewrite !Forall_app. split_and!; [done|apply timer_ok_pacing|].
    by repeat constructor.
  - rewrite Forall_app. split; [done|]. by repeat constructor.
  - rewrite Forall_app. split; [done|]. by repeat constructor.
Qed.

Lemma SocketClose_not_in_pacing now i : SocketClose ∉ pacing o time0 now i.
Proof.
  unfold pacing. destruct (decide _); [|by apply not_elem_of_nil].
  by intros ?%list_elem_of_singleton.
Qed.

(** X15.  The push socket is closed when the loop is left, once, and
    nothing is sent after that: while the sender is in its loop the trace
    holds no close; afterwards the trace is the trace of the loop, the
    close, and then only the 100 ms sleeps of the wait for replies. *)
Theorem socket_closed_once evs m :
  run_ evs machine_init = Some m →
  (m_phase m = Sending → SocketClose ∉ m_out m)
  ∧ (m_phase m ≠ Sending →
     ∃ pre post, m_out m = pre ++ (SocketClose :: post)
                 ∧ (SocketClose ∉ pre)
                 ∧ sent_messages pre = sent_messages (m_out m)
                 ∧ Forall (λ e, e = SetTimeout 100) post).
Proof.
  apply (run_invariant (λ m,
    (m_phase m = Sending → SocketClose ∉ m_out m)
    ∧ (m_phase m ≠ Sending →
       ∃ pre post, m_out m = pre ++ (SocketClose :: post)
                   ∧ (SocketClose ∉ pre)
                   ∧ sent_messages pre = sent_messages (m_out m)
                   ∧ Forall (λ e, e = SetTimeout 100) post)));
    [|apply inv_init|].
  2:{ split; [intros _; apply not_elem_of_nil | done]. }
  clear. intros m ev m' _ [HS HD] Hstep.
  destruct (step_cases _ _ _ Hstep)
    as [(env & buf & _ & Hph & _ & _ & ->)
       |[(env & _ & Hph & _ & ->)
        |[(env & last & _ & Hph & ->)
         |[(env & last & _ & Hph & ->)
          |[(env & r & _ & Hph & ->)
           |(raw & now & st & _ & _ & ->)]]]]]; fields; try done.
  - split; [intros _|done]. rewrite !not_elem_of_app. split_and!.
    + by apply HS.
    + apply SocketClose_not_in_pacing.
    + by intros ?%list_elem_of_singleton.
  - split; [done|intros _]. exists (m_out m), [].
    split_and!; [done|by apply HS| |constructor].
    unfold sent_messages. by rewrite omap_app, app_nil_r.
  - split; [done|intros _].
    destruct HD as (pre & post & Hout & Hpre & Hsent & Hpost); [by rewrite Hph|].
    exists pre, (post ++ [uSleep 100000]). split_and!.
    + by rewrite Hout, <- app_assoc.
    + done.
    + rewrite Hsent. unfold sent_messages. by rewrite omap_app, app_nil_r.
    + rewrite Forall_app. split; [done|]. by repeat constructor.
  - split; [done|intros _]. apply HD. by rewrite Hph.
Qed.
Lemma sent_messages_app out1 out2 :
  sent_messages (out1 ++ out2) = sent_messages out1 ++ sent_messages out2.
Proof. apply omap_app. Qed.

Lemma sent_messages_pacing now i : sent_messages (pacing o time0 now i) = [].
Proof. unfold pacing. by destruct (decide _). Qed.

Lemma non_sending_turn m env :
  m_phase m ≠ Sending →
  ∃ m', step_ m (Turn env) = Some m'
        ∧ m_phase m' ≠ Sending ∧ m_i m' = m_i m
        ∧ sent_messages (m_out m') = sent_messages (m_out m).
Proof.
  intros Hph. cbn. unfold sender_turn.
  destruct (m_phase m) as [|last|r] eqn:E; [done|..].
  - destruct (decide _); eexists; (split; [reflexivity|]); fields;
      split_and!; try done.
    by rewrite sent_messages_app, app_nil_r.
  - exists m. by rewrite E.
Qed.

(** The messages sent do not depend on the replies: a run and the same
    run without its replies send the same messages. *)
Lemma run_turns_only evs m m2 m' :
  m_i m = m_i m2 →
  (m_phase m = Sending ↔ m_phase m2 = Sending) →
  sent_messages (m_out m) = sent_messages (m_out m2) →
  run_ evs m = Some m' →
  ∃ m2', run_ (turns_only evs) m2 = Some m2'
         ∧ m_i m' = m_i m2'
         ∧ (m_phase m' = Sending ↔ m_phase m2' = Sending)
         ∧ sent_messages (m_out m') = sent_messages (m_out m2').
Proof.
  revert m m2. induction evs as [|ev evs IH]; intros m m2 Hi Hph Hout Hrun;
    cbn in Hrun.
  - simplify_eq. by exists m2.
  - destruct (step_ m ev) as [m1|] eqn:Hstep; [|done]. cbn in Hrun.
    unfold turns_only. rewrite turn_envs_cons.
    destruct (step_cases _ _ _ Hstep)
      as [(env & buf & -> & HS & Hlt & Hread & ->)
         |[(env & -> & HS & Hlt & ->)
          |[(env & last & -> & HD & ->)
           |[(env & last & -> & HD & ->)
            |[(env & r & -> & HD & ->)
             |(raw & now & st & -> & _ & ->)]]]]].
    + apply Hph in HS as HS2. cbn in Hstep. unfold sender_turn in Hstep.
      rewrite HS, Hlt in Hstep. unfold sender_body in Hstep.
      destruct (encUInt32 (m_i m + 1)) as [buf'|] eqn:Hbuf; [|done].
      cbn in Hstep. simplify_eq.
      cbn [fmap list_fmap run]. cbn [step]. unfold sender_turn.
      rewrite HS2, <- Hi, Hlt. unfold sender_body. rewrite <- Hi, Hbuf. cbn.
      refine (IH _ _ _ _ _ Hrun); fields; try done.
      rewrite !sent_messages_app, !sent_messages_pacing, Hout. done.
    + apply Hph in HS as HS2.
      cbn [fmap list_fmap run]. cbn [step]. unfold sender_turn.
      rewrite HS2, <- Hi, Hlt. cbn.
      refine (IH _ _ _ _ _ Hrun); fields; try done.
      rewrite !sent_messages_app, Hout. done.
    + assert (HD2 : m_phase m2 ≠ Sending) by (rewrite <- Hph, HD; done).
      destruct (non_sending_turn m2 env HD2) as (m2' & Hm2 & Hph2 & Hi2 & Hout2).
      cbn [fmap list_fmap run]. rewrite Hm2. cbn.
      refine (IH _ _ _ _ _ Hrun); fields.
      * congruence.
      * split; [done | intros ?; by destruct Hph2].
      * rewrite sent_messages_app, app_nil_r. congruence.
    + assert (HD2 : m_phase m2 ≠ Sending) by (rewrite <- Hph, HD; done).
      destruct (non_sending_turn m2 env HD2) as (m2' & Hm2 & Hph2 & Hi2 & Hout2).
      cbn [fmap list_fmap run]. rewrite Hm2. cbn.
      refine (IH _ _ _ _ _ Hrun); fields.
      * congruence.
      * split; [done | intros ?; by destruct Hph2].
      * congruence.
    + assert (HD2 : m_phase m2 ≠ Sending) by (rewrite <- Hph, HD; done).
      destruct (non_sending_turn m2 env HD2) as (m2' & Hm2 & Hph2 & Hi2 & Hout2).
      cbn [fmap list_fmap run]. rewrite Hm2. cbn.
      refine (IH _ _ _ _ _ Hrun).
      * congruence.
      * rewrite HD. split; [done | intros ?; by destruct Hph2].
      * congruence.
    + refine (IH _ m2 _ _ _ Hrun); fields; done.
Qed.

(** X16.  Replies never change what is sent: a run sends the same
    messages, in the same order, as the run of the sender's turns alone. *)
Theorem sends_independent_of_replies evs m :
  run_ evs machine_init = Some m →
  ∃ m2, run_ (turns_only evs) machine_init = Some m2
        ∧ sent_messages (m_out m2) = sent_messages (m_out m).
Proof.
  intros Hrun.
  destruct (run_turns_only evs machine_init machine_init m) as (m2 & ? & _ & _ & ?);
    try done.
  by exists m2.
Qed.
(** X17.  After the report the sender does nothing more: whatever turns
    and replies follow, the report stays as it is, nothing is added to the
    trace, and [sent] does not change. *)
Theorem report_is_final evs m r m' :
  m_phase m = Reported r → run o domains ips time0 evs m = Some m' →
  m_phase m' = Reported r ∧ m_out m' = m_out m
  ∧ msgsSent (m_store m') = msgsSent (m_store m).
Proof.
  revert m. induction evs as [|ev evs IH]; intros m Hph Hrun; cbn in Hrun.
  - by simplify_eq.
  - destruct (step_ m ev) as [m1|] eqn:Hstep; [|done]. cbn in Hrun.
    assert (m_phase m1 = Reported r ∧ m_out m1 = m_out m
            ∧ msgsSent (m_store m1) = msgsSent (m_store m)) as (Hph1 & Hout1 & Hs1).
    { destruct (step_cases _ _ _ Hstep)
        as [(env & buf & _ & HS & _)
           |[(env & _ & HS & _)
            |[(env & last & _ & HD & _)
             |[(env & last & _ & HD & _)
              |[(env & r' & _ & _ & ->)
               |(raw & now & st & _ & Hst & ->)]]]]]; try congruence.
      - done.
      - fields. unfold on_message in Hst.
        by destruct (readUInt32BE raw); simplify_eq/=. }
    destruct (IH m1 Hph1 Hrun) as (? & ? & ?). split_and!; congruence.
Qed.

(** X18.  The report is made after the last request: its [sent] is the
    number of passes of the loop, which is the final value of the counter,
    and its [received] counts the replies that had arrived by then. *)
Theorem report_counts evs m r :
  run_ evs machine_init = Some m → m_phase m = Reported r →
  rep_sent r = loop_count o
  ∧ rep_sent r = msgsSent (m_store m)
  ∧ rep_received r <= msgsReceived (m_store m).
Proof.
  intros Hrun Hph.
  pose proof (inv_run _ _ _ _ _ _ _ (inv_init o) Hrun) as Hinv.
  cut (rep_sent r = msgsSent (m_store m)
       ∧ rep_received r <= msgsReceived (m_store m)).
  { intros [Hs Hr]. split_and!; [|done..].
    rewrite Hs, (inv_sent _ _ Hinv). apply (inv_done _ _ Hinv). by rewrite Hph. }
  revert r Hph.
  apply (run_invariant (λ m, ∀ r, m_phase m = Reported r →
           rep_sent r = msgsSent (m_store m)
           ∧ rep_received r <= msgsReceived (m_store m)))
    with (evs := evs) (m := machine_init); [|apply inv_init|done|done].
  clear. intros m ev m' _ HP Hstep r.
  destruct (step_cases _ _ _ Hstep)
    as [(env & buf & _ & HS & _ & _ & ->)
       |[(env & _ & HS & _ & ->)
        |[(env & last & _ & HD & ->)
         |[(env & last & _ & HD & ->)
          |[(env & r' & _ & HR & ->)
           |(raw & now & st & _ & Hst & ->)]]]]]; fields; try done.
  - intros [= <-]. cbn. lia.
  - apply HP.
  - intros Hph. destruct (HP r Hph) as [Hs Hr].
    unfold on_message in Hst. destruct (readUInt32BE raw); simplify_eq/=. lia.
Qed.

(** X19.  A timer set before request [i] never ends after the scheduled
    offset of the request, and ends less than a millisecond before it:
    it is set only when the elapsed time is below the offset, for a whole
    number [ms] of milliseconds that is not negative, with
    [elapsed + 1000 ms <= offset < elapsed + 1000 ms + 1000].  (The
    readings are as [process.hrtime()] gives them and the offset is at
    most 2^52 us, the range in which the code's doubles hold these whole
    numbers exactly.)  For a whole rate [r] that divides 1_000_000, such
    as 100, the offset is exactly [i * (1_000_000 / r)] us. *)
Theorem pacing_timer_within_offset now i e :
  hrtime_ok time0 → hrtime_ok now → nanos time0 <= nanos now →
  0 <= i < 2 ^ 32 → uTimeReqd o i <= 2 ^ 52 →
  e ∈ pacing o time0 now i →
  (∃ ms, e = SetTimeout ms ∧ 0 <= ms
         ∧ uTimeDiff time0 now < uTimeReqd o i
         ∧ uTimeDiff time0 now + 1000 * ms <= uTimeReqd o i
           < uTimeDiff time0 now + 1000 * ms + 1000)
  ∧ (∀ r, 0 < r → (r | 1000000) → (MPS o == inject_Z r)%Q →
          uTimeReqd o i = i * (1000000 / r)).
Proof.
  intros _ _ _ Hi _ He. split.
  - unfold pacing in He. destruct (decide _) as [Hgt|]; [|by inversion He].
    apply list_elem_of_singleton in He as ->. unfold uSleep.
    eexists. split; [reflexivity|].
    revert Hgt. generalize (uTimeReqd o i), (uTimeDiff time0 now).
    intros reqd spent Hgt.
    split_and!; [apply Z.div_pos; lia | lia | |];
      Z.div_mod_to_equations; lia.
  - intros r Hr [q Hq] Hrate.
    assert (Hdiv : 1000000 / r = q) by (rewrite Hq; apply Z.div_mul; lia).
    assert (Hle : r <= 1000000)
      by (apply Z.divide_pos_le; [lia | by exists q]).
    assert (Hqle : 0 < q <= 1000000) by nia.
    rewrite Hdiv. unfold uTimeReqd, Math_floor, Number.
    rewrite <- (Qfloor_Z (i * q)). apply Qfloor_comp.
    assert (Hr64 : (binary64 (MPS o) == inject_Z r)%Q).
    { rewrite (binary64_eq _ _ Hrate). apply binary64_Z.
      change (2 ^ 53) with 9007199254740992. lia. }
    assert (Hi64 : (binary64 (inject_Z i * 1000000) == inject_Z (i * 1000000))%Q).
    { apply (binary64_whole _ (i * 1000000)); [|by rewrite inject_Z_mult].
      change (2 ^ 32) with 4294967296 in Hi.
      change (2 ^ 53) with 9007199254740992. lia. }
    apply binary64_whole.
    + change (2 ^ 32) with 4294967296 in Hi.
      change (2 ^ 53) with 9007199254740992. nia.
    + etransitivity; [apply (Qdiv_comp _ _ Hi64 _ _ Hr64)|].
      replace (i * 1000000) with (i * q * r) by (rewrite Hq; ring).
      rewrite (inject_Z_mult (i * q) r).
      assert (Hr0 : ¬ (inject_Z r == 0)%Q).
      { intros H0. apply (inject_Z_injective r 0) in H0. lia. }
      by field.
Qed.

(** X20.  The ids counted as completed never outnumber the requests sent
    or the replies received. *)
Theorem sample_size_bounds evs m :
  run_ evs machine_init = Some m →
  Z.of_nat (length (latencies (m_store m))) <= msgsSent (m_store m)
  ∧ Z.of_nat (length (latencies (m_store m))) <= msgsReceived (m_store m).
Proof.
  intros Hrun.
  cut (Z.of_nat (size (reqStartTime (m_store m))) <= msgsSent (m_store m)
       ∧ Z.of_nat (size (reqEndTime (m_store m))) <= msgsReceived (m_store m)).
  { intros [Hs He]. rewrite latencies_collect, collect_latencies_length.
    pose proof (subseteq_size
      (dom (reqStartTime (m_store m)) ∩ dom (reqEndTime (m_store m)))
      (dom (reqStartTime (m_store m)) : gset Z) ltac:(apply intersection_subseteq_l)).
    pose proof (subseteq_size
      (dom (reqStartTime (m_store m)) ∩ dom (reqEndTime (m_store m)))
      (dom (reqEndTime (m_store m)) : gset Z) ltac:(apply intersection_subseteq_r)).
    rewrite !size_dom in *. lia. }
  apply (run_invariant (λ m,
           Z.of_nat (size (reqStartTime (m_store m))) <= msgsSent (m_store m)
           ∧ Z.of_nat (size (reqEndTime (m_store m))) <= msgsReceived (m_store m)))
    with (evs := evs) (m := machine_init); [|apply inv_init|done|done].
  clear. intros m ev m' _ [Hs He] Hstep.
  destruct (step_cases _ _ _ Hstep)
    as [(env & buf & _ & HS & _ & _ & ->)
       |[(env & _ & HS & _ & ->)
        |[(env & last & _ & HD & ->)
         |[(env & last & _ & HD & ->)
          |[(env & r' & _ & HR & ->)
           |(raw & now & st & _ & Hst & ->)]]]]]; fields; try done.
  - split; [|done]. rewrite map_size_insert. destruct (_ !! _); unfold id; lia.
  - unfold on_message in Hst. destruct (readUInt32BE raw); simplify_eq/=.
    split; [lia|]. rewrite map_size_insert. destruct (_ !! _); unfold id; lia.
Qed.

(** X21.  While every reply answers a request that was sent and not yet
    answered, each reply completes one request: the number of latencies
    collected equals [received], and [pending] is the number of requests
    still without an end time. *)
Theorem matched_replies_complete evs m :
  run_ evs machine_init = Some m →
  replies_matched o domains ips time0 evs machine_init = true →
  Z.of_nat (length (latencies (m_store m))) = msgsReceived (m_store m)
  ∧ pendingCount (m_store m)
    = Z.of_nat (size (dom (reqStartTime (m_store m))
                      ∖ dom (reqEndTime (m_store m)) : gset Z)).
Proof.
  intros Hrun Hmatched.
  pose proof (inv_run _ _ _ _ _ _ _ (inv_init o) Hrun) as Hinv.
  pose proof (matched_inv_run _ _ _ _ _ _ _ (inv_init o)
                matched_inv_init Hrun Hmatched) as [Hdom Hstart Hend].
  rewrite latencies_collect, collect_latencies_length.
  rewrite (inv_pending _ _ Hinv), <- Hstart, <- Hend.
  rewrite <- !(size_dom (D := gset Z)).
  set (S := dom (reqStartTime (m_store m)) : gset Z) in *.
  set (E := dom (reqEndTime (m_store m)) : gset Z) in *.
  assert (HSE : S ∩ E = E) by (apply set_eq; intros k; rewrite elem_of_intersection;
                               split; [tauto | intros HE; split; [by apply Hdom | done]]).
  rewrite HSE. split; [done|].
  assert (HS : S = E ∪ (S ∖ E)).
  { apply set_eq. intros k. rewrite elem_of_union, elem_of_difference.
    split; [|intros [HE|[? _]]; [by apply Hdom | done]].
    intros Hk. destruct (decide (k ∈ E)); tauto. }
  rewrite HS at 1.
  rewrite (size_union (C := gset Z)); [lia|].
  intros k Hk1 [_ Hk2]%elem_of_difference. done.
Qed.
Lemma run_non_sending_i evs m m' :
  m_phase m ≠ Sending → run_ evs m = Some m' →
  m_i m' = m_i m ∧ reqStartTime (m_store m') = reqStartTime (m_store m).
Proof.
  revert m. induction evs as [|ev evs IH]; intros m Hph Hrun; cbn in Hrun.
  - by simplify_eq.
  - destruct (step_ m ev) as [m1|] eqn:Hstep; [|done]. cbn in Hrun.
    pose proof (step_finished _ _ _ _ _ _ _ Hstep Hph) as Hph1.
    destruct (IH m1 Hph1 Hrun) as [-> ->].
    destruct (step_cases _ _ _ Hstep)
      as [(env & buf & _ & HS & _)
         |[(env & _ & HS & _)
          |[(env & last & _ & HD & ->)
           |[(env & last & _ & HD & ->)
            |[(env & r' & _ & _ & ->)
             |(raw & now & st & _ & Hst & ->)]]]]]; try done.
    fields. unfold on_message in Hst.
    by destruct (readUInt32BE raw); simplify_eq/=.
Qed.

Lemma run_start_times evs m m' :
  run_ evs m = Some m' →
  (∀ k, k <= m_i m →
        reqStartTime (m_store m') !! k = reqStartTime (m_store m) !! k)
  ∧ (∀ k, m_i m < k <= m_i m' →
          reqStartTime (m_store m') !! k
          = env_sent_at <$> turn_envs evs !! Z.to_nat (k - 1 - m_i m)).
Proof.
  revert m. induction evs as [|ev evs IH]; intros m Hrun; cbn in Hrun.
  - simplify_eq. split; [done | intros k; lia].
  - destruct (step_ m ev) as [m1|] eqn:Hstep; [|done]. cbn in Hrun.
    destruct (IH m1 Hrun) as [IHold IHnew]. rewrite turn_envs_cons.
    destruct (step_cases _ _ _ Hstep)
      as [(env & buf & -> & HS & _ & _ & ->)
         |[(env & -> & HS & _ & ->)
          |[(env & last & -> & HD & ->)
           |[(env & last & -> & HD & ->)
            |[(env & r' & -> & HD & ->)
             |(raw & now & st & -> & Hst & ->)]]]]].
    + fields in IHold. fields in IHnew. split.
      * intros k Hk. rewrite IHold by lia. apply lookup_insert_ne. lia.
      * intros k Hk. destruct (decide (k = m_i m + 1)) as [->|Hne].
        -- rewrite IHold by lia. rewrite lookup_insert_eq.
           by replace (m_i m + 1 - 1 - m_i m) with 0 by lia.
        -- rewrite IHnew by lia.
           replace (Z.to_nat (k - 1 - m_i m))
             with (S (Z.to_nat (k - 1 - (m_i m + 1)))) by lia.
           done.
    + eapply run_non_sending_i in Hrun as [Hi Hst]; [|done].
      fields in Hi. fields in Hst. rewrite Hst.
      split; [done | intros k; lia].
    + eapply run_non_sending_i in Hrun as [Hi Hst]; [|done].
      fields in Hi. fields in Hst. rewrite Hst.
      split; [done | intros k; lia].
    + eapply run_non_sending_i in Hrun as [Hi Hst]; [|done].
      fields in Hi. fields in Hst. rewrite Hst.
      split; [done | intros k; lia].
    + eapply run_non_sending_i in Hrun as [Hi Hst]; [|by rewrite HD].
      rewrite Hst. split; [done | intros k; lia].
    + fields in IHold. fields in IHnew.
      assert (reqStartTime st = reqStartTime (m_store m)) as Hsame.
      { unfold on_message in Hst. by destruct (readUInt32BE raw); simplify_eq/=. }
      rewrite Hsame in IHold. done.
Qed.

(** X22.  The start time kept for request [k] is the clock read right
    after its send, in the sender's turn number [k] (counting from 1); it
    is never overwritten, and ids outside 1..sent have no start time. *)
Theorem start_time_of_request evs m k :
  run_ evs machine_init = Some m →
  reqStartTime (m_store m) !! k
  = if decide (1 <= k <= msgsSent (m_store m))
    then env_sent_at <$> turn_envs evs !! Z.to_nat (k - 1)
    else None.
Proof.
  intros Hrun.
  pose proof (inv_run _ _ _ _ _ _ _ (inv_init o) Hrun) as Hinv.
  destruct (run_start_times _ _ _ Hrun) as [_ Hnew]. cbn in Hnew.
  rewrite (inv_sent _ _ Hinv). destruct (decide _) as [Hk|Hk].
  - rewrite Hnew by lia. by replace (k - 1 - 0) with (k - 1) by lia.
  - apply eq_None_not_Some. by rewrite (inv_start _ _ Hinv).
Qed.

Lemma nonneg_step m ev m' :
  inv o m → matched_inv m → step_ m ev = Some m' →
  match ev with
  | Reply rawReqID _ => reply_matched rawReqID (m_store m) = true
  | Turn _ => True
  end →
  (∀ k t0, reqStartTime (m_store m) !! k = Some t0 →
           nanos t0 <= nanos (ev_clock ev)) →
  (∀ k t0 t1, reqStartTime (m_store m) !! k = Some t0 →
              reqEndTime (m_store m) !! k = Some t1 → nanos t0 <= nanos t1) →
  (∀ k t0, reqStartTime (m_store m') !! k = Some t0 →
           nanos t0 <= nanos (ev_clock ev))
  ∧ (∀ k t0 t1, reqStartTime (m_store m') !! k = Some t0 →
                reqEndTime (m_store m') !! k = Some t1 → nanos t0 <= nanos t1).
Proof.
  intros Hinv [Hdom _ _] Hstep Hev Hhead Hdone.
  destruct (step_cases _ _ _ Hstep)
    as [(env & buf & -> & HS & _ & _ & ->)
       |[(env & -> & HS & _ & ->)
        |[(env & last & -> & HD & ->)
         |[(env & last & -> & HD & ->)
          |[(env & r' & -> & HD & ->)
           |(raw & now & st & -> & Hst & ->)]]]]]; fields; try done.
  - assert (Hfresh : reqStartTime (m_store m) !! (m_i m + 1) = None).
    { apply eq_None_not_Some. rewrite (inv_start _ _ Hinv). lia. }
    split.
    + intros k t0. destruct (decide (k = m_i m + 1)) as [->|Hne].
      * rewrite lookup_insert_eq. intros [= <-]. cbn. lia.
      * rewrite lookup_insert_ne by done. apply Hhead.
    + intros k t0 t1. destruct (decide (k = m_i m + 1)) as [->|Hne].
      * intros _ Hend. exfalso.
        assert (m_i m + 1 ∈ dom (reqStartTime (m_store m)))
          by (apply Hdom, elem_of_dom; eauto).
        by apply not_elem_of_dom in Hfresh.
      * rewrite lookup_insert_ne by done. apply Hdone.
  - unfold on_message in Hst.
    destruct (readUInt32BE raw) as [reqID|]; simplify_eq/=.
    split; [done|]. intros k t0 t1 Hk.
    destruct (decide (k = reqID)) as [->|Hne].
    + rewrite lookup_insert_eq. intros [= <-]. by eapply Hhead.
    + rewrite lookup_insert_ne by done. by apply Hdone.
Qed.

Lemma nonneg_run evs m m' :
  inv o m → matched_inv m → run_ evs m = Some m' →
  replies_matched o domains ips time0 evs m = true →
  clock_ordered evs →
  (∀ k t0, reqStartTime (m_store m) !! k = Some t0 →
           Forall (λ ev, nanos t0 <= nanos (ev_clock ev)) evs) →
  (∀ k t0 t1, reqStartTime (m_store m) !! k = Some t0 →
              reqEndTime (m_store m) !! k = Some t1 → nanos t0 <= nanos t1) →
  ∀ k t0 t1, reqStartTime (m_store m') !! k = Some t0 →
             reqEndTime (m_store m') !! k = Some t1 → nanos t0 <= nanos t1.
Proof.
  revert m. induction evs as [|ev evs IH];
    intros m Hinv Hm Hrun Hmatched Hclock Hlater Hdone; cbn in Hrun.
  - by simplify_eq.
  - destruct (step_ m ev) as [m1|] eqn:Hstep; [|done]. cbn in Hrun.
    cbn [replies_matched] in Hmatched. rewrite Hstep in Hmatched.
    apply andb_true_iff in Hmatched as [Hev Hevs].
    assert (Hev' : match ev with
                   | Reply rawReqID _ => reply_matched rawReqID (m_store m) = true
                   | Turn _ => True
                   end) by (by destruct ev).
    unfold clock_ordered in Hclock. rewrite fmap_cons in Hclock.
    apply StronglySorted_inv in Hclock as [Hclock Hhead].
    rewrite Forall_fmap in Hhead.
    destruct (nonneg_step m ev m1 Hinv Hm Hstep Hev') as [Hhead1 Hdone1];
      [|done|].
    { intros k t0 Hk. specialize (Hlater k t0 Hk). by inversion Hlater. }
    apply (IH m1); try done.
    + by eapply inv_step.
    + by eapply matched_inv_step.
    + intros k t0 Hk. apply Forall_forall. intros ev' Hev''.
      rewrite Forall_forall in Hhead. specialize (Hhead ev' Hev''). cbn in Hhead.
      specialize (Hhead1 k t0 Hk). lia.
Qed.

(** X23.  When the stored clock readings never go back and every reply
    answers a request that was sent and not yet answered, no collected
    latency is negative. *)
Theorem latencies_nonneg evs m :
  run_ evs machine_init = Some m →
  replies_matched o domains ips time0 evs machine_init = true →
  clock_ordered evs →
  Forall (λ lat, 0 <= lat) (latencies (m_store m)).
Proof.
  intros Hrun Hmatched Hclock. apply Forall_forall. intros lat Hlat.
  unfold latencies in Hlat.
  apply list_elem_of_omap in Hlat as ([k t0] & Hk%elem_of_map_to_list & Hlat).
  destruct (reqEndTime (m_store m) !! k) as [t1|] eqn:Hend; simplify_eq/=.
  apply uTimeDiff_nonneg.
  eapply (nonneg_run evs machine_init m); try done;
    first [apply inv_init | apply matched_inv_init].
Qed.
End RunMore.

(** ** Sample runs for the properties of whole runs *)

Lemma sender_timers_nonneg_witness :
  Forall timer_ok (m_out (sample_final scenario_A sample_schedule)).
Proof.
  apply (sender_timers_nonneg scenario_A sample_domains sample_ips
           sample_time0 sample_schedule).
  by vm_compute.
Defined.

Lemma socket_closed_once_witness :
  ∃ pre post,
    m_out (sample_final scenario_A sample_schedule) = pre ++ (SocketClose :: post)
    ∧ (SocketClose ∉ pre)
    ∧ sent_messages pre
      = sent_messages (m_out (sample_final scenario_A sample_schedule))
    ∧ Forall (λ e, e = SetTimeout 100) post.
Proof.
  apply (socket_closed_once scenario_A sample_domains sample_ips
           sample_time0 sample_schedule); by vm_compute.
Defined.

Lemma sends_independent_of_replies_witness :
  ∃ m2, sample_run scenario_A (turns_only sample_schedule) = Some m2
        ∧ sent_messages (m_out m2)
          = sent_messages (m_out (sample_final scenario_A sample_schedule)).
Proof.
  apply (sends_independent_of_replies scenario_A sample_domains sample_ips
           sample_time0 sample_schedule); by vm_compute.
Defined.

Lemma report_is_final_witness :
  let m := sample_final scenario_A sample_schedule_done in
  let m' := sample_final scenario_A (sample_schedule_done ++ [reply_to 3 12000000]) in
  m_phase m' = Reported (statsReport (m_store m))
  ∧ m_out m' = m_out m
  ∧ msgsSent (m_store m') = msgsSent (m_store m).
Proof.
  apply (report_is_final scenario_A sample_domains sample_ips sample_time0
           [reply_to 3 12000000] (sample_final scenario_A sample_schedule_done));
    by vm_compute.
Defined.

Lemma report_counts_witness :
  let r := statsReport (m_store (sample_final scenario_A sample_schedule_done)) in
  rep_sent r = loop_count scenario_A
  ∧ rep_sent r = msgsSent (m_store (sample_final scenario_A sample_schedule_done))
  ∧ rep_received r
    <= msgsReceived (m_store (sample_final scenario_A sample_schedule_done)).
Proof.
  apply (report_counts scenario_A sample_domains sample_ips sample_time0
           sample_schedule_done); by vm_compute.
Defined.

Lemma pacing_timer_within_offset_witness :
  (∃ ms, SetTimeout 50 = SetTimeout ms ∧ 0 <= ms
         ∧ uTimeDiff sample_time0 (HrTime 100 50000000) < uTimeReqd scenario_A 1
         ∧ uTimeDiff sample_time0 (HrTime 100 50000000) + 1000 * ms
           <= uTimeReqd scenario_A 1
           < uTimeDiff sample_time0 (HrTime 100 50000000) + 1000 * ms + 1000)
  ∧ (∀ r, 0 < r → (r | 1000000) → (MPS scenario_A == inject_Z r)%Q →
          uTimeReqd scenario_A 1 = 1 * (1000000 / r)).
Proof.
  apply (pacing_timer_within_offset scenario_A sample_time0
           (HrTime 100 50000000) 1 (SetTimeout 50)).
  - by vm_compute.
  - by vm_compute.
  - by vm_compute.
  - by vm_compute.
  - by vm_compute.
  - vm_compute. apply list_elem_of_here.
Defined.

Lemma sample_size_bounds_witness :
  let st := m_store (sample_final scenario_A sample_schedule) in
  Z.of_nat (length (latencies st)) <= msgsSent st
  ∧ Z.of_nat (length (latencies st)) <= msgsReceived st.
Proof.
  apply (sample_size_bounds scenario_A sample_domains sample_ips sample_time0
           sample_schedule); by vm_compute.
Defined.

Lemma matched_replies_complete_witness :
  let st := m_store (sample_final scenario_A sample_schedule) in
  Z.of_nat (length (latencies st)) = msgsReceived st
  ∧ pendingCount st
    = Z.of_nat (size (dom (reqStartTime st) ∖ dom (reqEndTime st) : gset Z)).
Proof.
  apply (matched_replies_complete scenario_A sample_domains sample_ips
           sample_time0 sample_schedule); by vm_compute.
Defined.

Lemma start_time_of_request_witness :
  reqStartTime (m_store (sample_final scenario_A sample_schedule)) !! 2
  = if decide (1 <= 2 <= msgsSent (m_store (sample_final scenario_A sample_schedule)))
    then env_sent_at <$> turn_envs sample_schedule !! Z.to_nat (2 - 1)
    else None.
Proof.
  apply (start_time_of_request scenario_A sample_domains sample_ips
           sample_time0 sample_schedule); by vm_compute.
Defined.

Lemma latencies_nonneg_witness :
  Forall (λ lat, 0 <= lat)
         (latencies (m_store (sample_final scenario_A sample_schedule))).
Proof.
  apply (latencies_nonneg scenario_A sample_domains sample_ips sample_time0
           sample_schedule); [by vm_compute | by vm_compute |].
  unfold clock_ordered, sample_schedule, turn_at, reply_to.
  cbn [fmap list_fmap ev_clock env_sent_at].
  repeat (apply SSorted_cons;
          [|repeat (constructor; [by vm_compute|]); constructor]).
  apply SSorted_nil.
Defined.

(** A reply that arrives before the send of its id is recorded gives a
    negative latency. *)
Example latency_negative_when_reply_precedes_send :
  latencies (m_store (sample_final scenario_A [reply_to 1 0; turn_at 5000]))
  = [-5020].
Proof. by vm_compute. Qed.

Lemma uTimeDiff_nanos_witness :
  uTimeDiff (HrTime 1 999999000) (HrTime 2 1000) = 2
  ∧ 0 <= uTimeDiff (HrTime 1 999999000) (HrTime 2 1000).
Proof.
  destruct (uTimeDiff_nanos (HrTime 1 999999000) (HrTime 2 1000))
    as (Hd & _ & _ & Hpos); [by vm_compute..|].
  split; [rewrite Hd; reflexivity|]. apply Hpos. by vm_compute.
Defined.

Lemma uTimeDiff_split_witness :
  uTimeDiff (HrTime 0 0) (HrTime 0 1000) - 1
  <= uTimeDiff (HrTime 0 0) (HrTime 0 500)
     + uTimeDiff (HrTime 0 500) (HrTime 0 1000)
  <= uTimeDiff (HrTime 0 0) (HrTime 0 1000).
Proof.
  apply (uTimeDiff_split (HrTime 0 0) (HrTime 0 500) (HrTime 0 1000));
    by vm_compute.
Defined.
